(** * A rail network simulation: stations, connections, path search, trains

    Shallow embedding of [trains.py]: the [Station] and [Train] classes with
    their catalog builders, the breadth-first path search, the movement of a
    train by one time unit and the simulation of one turn.

    Python objects are modelled by records, the dictionaries by finite maps
    ([gmap]) or, where the iteration order is observed, by association
    lists; the 3-tuples stored in [Station.connections] stay tuples of
    strings, since the code tests membership in them.  Exceptions are an
    explicit error result, the [random] module is an oracle that is threaded
    through the code which draws from it. *)

From Stdlib Require Import QArith.
From stdpp Require Import gmap strings list fin_maps pretty.

Local Open Scope string_scope.
Local Open Scope list_scope.
Local Open Scope nat_scope.

Set Warnings "-clear-no-such-hyp".

(** ** Exceptions *)

Inductive error : Type :=
  | KeyError     (* catalog[key] with a key the dictionary does not hold *)
  | IndexError.  (* random.choice / random.choices on an empty sequence *)

Inductive result (A : Type) : Type :=
  | Ok (a : A)
  | Raise (e : error).
Arguments Ok {A} a.
Arguments Raise {A} e.

Definition result_bind {A B} (r : result A) (k : A → result B) : result B :=
  match r with
  | Ok a => k a
  | Raise e => Raise e
  end.

#[global] Instance result_ret : MRet result := @Ok.
#[global] Instance result_mbind : MBind result := λ A B k r, result_bind r k.

(** [for x in xs: acc = body(acc, x)], leaving at the first exception. *)
Fixpoint for_each {A S} (body : S → A → result S) (xs : list A) (acc : S)
  : result S :=
  match xs with
  | [] => Ok acc
  | x :: rest => acc' ← body acc x; for_each body rest acc'
  end.

(** ** Stations *)

(** An element of [Station.connections]: the tuple
    [(connecting station, line, direction)]. *)
Definition Connection : Type := string * string * string.

(** A row of the connections file: [(name, connection, line, direction)]. *)
Definition ConnectionRow : Type := string * string * string * string.

Record Station : Type := mkStation {
  name : string;
  delay_constant : Q;
  connections : list Connection
}.

Module Station.

(** [Station.build_catalog]: a dictionary comprehension, so a later row
    with the same name replaces the earlier station. *)
Definition build_catalog (station_list : list (string * Q))
  : gmap string Station :=
  foldl (λ catalog row, <[row.1 := mkStation row.1 row.2 []]> catalog)
        ∅ station_list.

(** [catalog[key].connections.append(entry)] *)
Definition append_connection (catalog : gmap string Station)
    (key : string) (entry : Connection) : result (gmap string Station) :=
  match catalog !! key with
  | None => Raise KeyError
  | Some st =>
      Ok (<[key := mkStation (name st) (delay_constant st)
                             (connections st ++ [entry])]> catalog)
  end.

(** The tuple [inverse] of the second loop of [map_connections]. *)
Definition inverse (element : ConnectionRow) : Connection :=
  match element with
  | (a, _, line, direction) =>
      if bool_decide (direction = "S") then (a, line, "N")
      else (a, line, "S")
  end.

(** [element[1:]] *)
Definition forward (element : ConnectionRow) : Connection :=
  match element with
  | (_, b, line, direction) => (b, line, direction)
  end.

Definition row_from (element : ConnectionRow) : string := element.1.1.1.
Definition row_to (element : ConnectionRow) : string := element.1.1.2.

(** [Station.map_connections] *)
Definition map_connections (stations_list : list (string * Q))
    (connections_list : list ConnectionRow) : result (gmap string Station) :=
  let catalog := build_catalog stations_list in
  catalog ← for_each
    (λ catalog element,
       append_connection catalog (row_from element) (forward element))
    connections_list catalog;
  for_each
    (λ catalog element,
       append_connection catalog (row_to element) (inverse element))
    connections_list catalog.

(** [Station.build_graph]: every key with the connecting station names of
    its connections, in order. *)
Definition build_graph (station_catalog : gmap string Station)
  : gmap string (list string) :=
  (λ st, (λ entry : Connection, entry.1.1) <$> connections st)
    <$> station_catalog.

(** *** Path search *)

(** The [for neighbour in connections] loop of [breadth_first_pathfind]:
    every neighbour extends the dequeued path and joins the queue; the
    loop is left with the extended path at the first neighbour that is the
    goal ([inl]), and otherwise hands back the grown queue ([inr]). *)
Fixpoint extend (goal : string) (search_path connections : list string)
    (queue : list (list string)) : list string + list (list string) :=
  match connections with
  | [] => inr queue
  | neighbour :: rest =>
      let shortest_path := search_path ++ [neighbour] in
      let queue := queue ++ [shortest_path] in
      if bool_decide (neighbour = goal) then inl shortest_path
      else extend goal search_path rest queue
  end.

(** The [while queue] loop, one iteration per unit of [fuel]; [None] means
    that the iterations allowed were used up. *)
Fixpoint bfs_loop (fuel : nat) (graph : gmap string (list string))
    (goal : string) (explored : list string) (queue : list (list string))
  : option (result (list string)) :=
  match fuel with
  | O => None
  | S fuel =>
      match queue with
      | [] => Some (Ok [])
      | search_path :: queue =>
          match last search_path with
          | None => Some (Raise IndexError)
          | Some station =>
              if bool_decide (station ∈ explored)
              then bfs_loop fuel graph goal explored queue
              else
                match graph !! station with
                | None => Some (Raise KeyError)
                | Some connections =>
                    match extend goal search_path connections queue with
                    | inl shortest_path => Some (Ok shortest_path)
                    | inr queue =>
                        bfs_loop fuel graph goal (explored ++ [station]) queue
                    end
                end
          end
      end
  end.

(** Number of entries of all the adjacency lists of [graph] whose key is
    not in [explored]. *)
Definition pending (graph : gmap string (list string))
    (explored : list string) : nat :=
  sum_list ((λ kv : string * list string,
               if bool_decide (kv.1 ∈ explored) then 0 else length kv.2)
            <$> map_to_list graph).

(** Iterations that the loop cannot exceed: every path but the first one
    is enqueued while a station is explored, a station is explored once,
    and one more iteration finds the queue empty. *)
Definition bfs_fuel (graph : gmap string (list string)) : nat :=
  S (S (pending graph [])).

(** [Station.breadth_first_pathfind] *)
Definition breadth_first_pathfind (graph : gmap string (list string))
    (start goal : string) : option (result (list string)) :=
  bfs_loop (bfs_fuel graph) graph goal [] [[start]].

End Station.

(** ** The random module *)

(** The generator is an oracle: the [position]-th draw is answered by
    [uniform] when a float of [[0,1)] is asked for and by [integer] when an
    element of a sequence is, and every draw advances the position. *)
Record Random : Type := mkRandom {
  position : nat;
  uniform : nat → Q;
  integer : nat → nat
}.

Definition advance (rnd : Random) : Random :=
  mkRandom (S (position rnd)) (uniform rnd) (integer rnd).

(** Code that draws random numbers and may raise. *)
Definition Rand (A : Type) : Type := Random → result (A * Random).

Definition rand_ret {A} (a : A) : Rand A := λ rnd, Ok (a, rnd).

Definition rand_bind {A B} (m : Rand A) (k : A → Rand B) : Rand B :=
  λ rnd, match m rnd with
         | Ok (a, rnd') => k a rnd'
         | Raise e => Raise e
         end.

Definition rand_raise {A} (e : error) : Rand A := λ _, Raise e.

Declare Scope rand_scope.
Delimit Scope rand_scope with rand.
Notation "'draw' x <- m ; k" := (rand_bind m (λ x, k))
  (at level 10, x name, m at level 100, k at level 200) : rand_scope.

(** [random.random()] *)
Definition random : Rand Q :=
  λ rnd, Ok (uniform rnd (position rnd), advance rnd).

(** [random.choice(seq)], and [random.choices(seq)[0]] alike: some element
    of the sequence, an [IndexError] when there is none. *)
Definition choice {A} (seq : list A) : Rand A :=
  λ rnd, match seq !! (integer rnd (position rnd) `mod` length seq)%nat with
         | Some x => Ok (x, advance rnd)
         | None => Raise IndexError
         end.

(** A loop that rebuilds a sequence element by element, in order. *)
Fixpoint rand_map {A B} (body : A → Rand B) (xs : list A) : Rand (list B) :=
  match xs with
  | [] => rand_ret []
  | x :: rest =>
      (draw y <- body x; draw ys <- rand_map body rest; rand_ret (y :: ys))%rand
  end.

(** [x > y] on floats, where neither is a NaN. *)
Definition Qgt_bool (x y : Q) : bool := negb (Qle_bool x y).

(** ** Trains *)

Record Train : Type := mkTrain {
  train_name : nat;
  station : string;
  line : string;
  course : string
}.

Module Train.

(** The lines found in a connection list, each once, in order of first
    appearance: the inner loop of [build_catalog]. *)
Definition line_options (conns : list Connection) : list string :=
  foldl (λ options connection,
           if bool_decide (connection.1.2 ∈ options) then options
           else options ++ [connection.1.2])
        [] conns.

(** The dictionary comprehension of [build_catalog]: train [n + 1] gets a
    station and a course, the line is left empty.  The station names are
    listed in the order of the finite map, which need not be the insertion
    order of the dictionary; the oracle can answer any of them either
    way. *)
Definition place (station_catalog : gmap string Station) (n : nat)
  : Rand (string * Train) :=
  (draw st <- choice (map_to_list station_catalog).*1;
   draw co <- choice ["N"; "S"];
   rand_ret (pretty (n + 1)%nat, mkTrain (n + 1) st "" co))%rand.

(** The body of the second loop of [build_catalog]. *)
Definition assign_line (station_catalog : gmap string Station)
    (entry : string * Train) : Rand (string * Train) :=
  match station_catalog !! station entry.2 with
  | None => rand_raise KeyError
  | Some st =>
      (draw l <- choice (line_options (connections st));
       rand_ret (entry.1, mkTrain (train_name entry.2) (station entry.2)
                                  l (course entry.2)))%rand
  end.

(** [Train.build_catalog]; the dictionary is kept as the list of its
    items, in insertion order. *)
Definition build_catalog (station_catalog : gmap string Station)
    (train_count : nat) : Rand (list (string * Train)) :=
  (draw catalog <- rand_map (place station_catalog) (seq 0 train_count);
   rand_map (assign_line station_catalog) catalog)%rand.

(** [Train.reverse] *)
Definition reverse (self : Train) : Train :=
  if bool_decide (course self = "N")
  then mkTrain (train_name self) (station self) (line self) "S"
  else mkTrain (train_name self) (station self) (line self) "N".

(** [x in connection] for a 3-tuple of strings. *)
Definition tuple_mem (x : string) (connection : Connection) : bool :=
  bool_decide (x = connection.1.1) || bool_decide (x = connection.1.2)
  || bool_decide (x = connection.2).

(** The final loop of [move]: the result is the returned flag and the
    train as the loop leaves it. *)
Fixpoint scan (self : Train) (conns : list Connection) : bool * Train :=
  match conns with
  | [] => (false, self)
  | connection :: rest =>
      if tuple_mem (line self) connection
         && tuple_mem (course self) connection
      then (true, mkTrain (train_name self) connection.1.1
                          (line self) (course self))
      else scan self rest
  end.

(** [connection[1:]] for every connection of a station. *)
Definition connections_data (conns : list Connection)
  : list (string * string) :=
  (λ connection : Connection, (connection.1.2, connection.2)) <$> conns.

(** [Train.move] *)
Definition move (self : Train) (station_catalog : gmap string Station)
  : result (bool * Train) :=
  match station_catalog !! station self with
  | None => Raise KeyError
  | Some st =>
      let found :=
        bool_decide ((line self, course self)
                       ∈ connections_data (connections st)) in
      let self := if found then self else reverse self in
      Ok (scan self (connections st))
  end.

(** The body of the loop of [simulate_turn], for one train. *)
Definition turn (station_catalog : gmap string Station) (train : Train)
  : Rand Train :=
  match station_catalog !! station train with
  | None => rand_raise KeyError
  | Some current_location =>
      (draw sample <- random;
       if Qgt_bool (delay_constant current_location) sample
       then rand_ret train
       else match move train station_catalog with
            | Ok (_, train') => rand_ret train'
            | Raise e => rand_raise e
            end)%rand
  end.

(** [Train.simulate_turn]: the trains are visited in the order of the
    dictionary and keep their keys. *)
Definition simulate_turn (station_catalog : gmap string Station)
    (train_catalog : list (string * Train)) : Rand (list (string * Train)) :=
  rand_map (λ entry : string * Train,
              (draw train <- turn station_catalog entry.2;
               rand_ret (entry.1, train))%rand)
           train_catalog.

End Train.

(** * Vocabulary of the properties *)

(** [grows catalog catalog']: the same stations, and every connection list
    only has entries appended. *)
Definition grows (catalog catalog' : gmap string Station) : Prop :=
  dom catalog' = dom catalog ∧
  ∀ key st, catalog !! key = Some st →
    ∃ st', catalog' !! key = Some st' ∧
           delay_constant st' = delay_constant st ∧
           ∀ entry, entry ∈ connections st → entry ∈ connections st'.

(** The opposite of a direction, north for south and south for north. *)
Definition opposite (direction : string) : string :=
  if bool_decide (direction = "N") then "S" else "N".

(** [edge graph u v]: [v] is listed among the neighbours of [u]. *)
Definition edge (graph : gmap string (list string)) (u v : string) : Prop :=
  ∃ neighbours, graph !! u = Some neighbours ∧ v ∈ neighbours.

(** Every station listed as a neighbour is a key of the graph, as in the
    graphs that [build_graph] derives from a loaded catalog. *)
Definition closed (graph : gmap string (list string)) : Prop :=
  ∀ u v, edge graph u v → is_Some (graph !! v).

(** Consecutive stations of a path are joined by an edge. *)
Definition joined (graph : gmap string (list string)) (p : list string)
  : Prop :=
  ∀ i u v, p !! i = Some u → p !! S i = Some v → edge graph u v.

(** [p] leads from [start] to [goal] along edges of the graph. *)
Definition path_between (graph : gmap string (list string))
    (start goal : string) (p : list string) : Prop :=
  head p = Some start ∧ last p = Some goal ∧ joined graph p.

(** Number of hops of a path: its length minus one. *)
Definition hops (p : list string) : nat := length p - 1.

Definition reachable (graph : gmap string (list string))
    (start goal : string) : Prop :=
  ∃ p, path_between graph start goal p.

(** [n] is the true minimum hop count from [start] to [goal]. *)
Definition minimum_hops (graph : gmap string (list string))
    (start goal : string) (n : nat) : Prop :=
  (∃ p, path_between graph start goal p ∧ hops p = n) ∧
  ∀ p, path_between graph start goal p → n ≤ hops p.

(** The paths that the search builds: they begin with [start] alone and
    grow at their end, by a neighbour of their last station. *)
Inductive route (graph : gmap string (list string)) (start : string)
  : list string → string → Prop :=
  | route_start : route graph start [start] start
  | route_step p u v :
      route graph start p u → edge graph u v →
      route graph start (p ++ [v]) v.

(** The state of the [while] loop of the search, between two iterations:
    the queue holds paths of [m] stations followed by paths of [m + 1]
    stations; the stations that fewer than [m] stations lead to are
    explored, those that [m] stations lead to are explored or wait at the
    end of a queued path of [m] stations; the neighbours of an explored
    station are explored or wait at the end of a queued path; and no
    explored station has the goal as a neighbour. *)
Record search_state (graph : gmap string (list string))
    (start goal : string) (m : nat) (explored : list string)
    (front back : list (list string)) : Prop := {
  state_level : 1 ≤ m;
  state_front : ∀ q, q ∈ front →
    (∃ v, route graph start q v) ∧ length q = m;
  state_back : ∀ q, q ∈ back →
    (∃ v, route graph start q v) ∧ length q = S m;
  state_below : ∀ w v, route graph start w v → length w < m → v ∈ explored;
  state_level_m : ∀ w v, route graph start w v → length w = m →
    v ∈ explored ∨ ∃ q, q ∈ front ∧ last q = Some v;
  state_frontier : ∀ u v, u ∈ explored → edge graph u v →
    v ∈ explored ∨ ∃ q, q ∈ front ++ back ∧ last q = Some v;
  state_goal : ∀ u, u ∈ explored → ¬ edge graph u goal
}.

(** What the search answers: nothing when no station that [start] leads to
    has the goal as a neighbour, and otherwise a path to such a station,
    as short as any, with the goal appended. *)
Definition search_answer (graph : gmap string (list string))
    (start goal : string) (r : list string) : Prop :=
  (r = [] ∧ ∀ w u, route graph start w u → ¬ edge graph u goal) ∨
  (∃ p u, r = p ++ [goal] ∧ route graph start p u ∧ edge graph u goal ∧
          ∀ w v, route graph start w v → edge graph v goal →
                 length p ≤ length w).

(** The catalog that [map_connections] returns, empty when it raises. *)
Definition loaded (stations_list : list (string * Q))
    (connections_list : list ConnectionRow) : gmap string Station :=
  match Station.map_connections stations_list connections_list with
  | Ok catalog => catalog
  | Raise _ => ∅
  end.

(** The network A - B - C, one line [L1] running north from A to C, no
    delays. *)
Definition line_stations : list (string * Q) :=
  [("A", 0%Q); ("B", 0%Q); ("C", 0%Q)].
Definition line_connections : list ConnectionRow :=
  [("A", "B", "L1", "N"); ("B", "C", "L1", "N")].
Definition line_catalog : gmap string Station :=
  loaded line_stations line_connections.

(** A network in which a line bears the name of a station: line [L1] runs
    north from A to B, line [B] runs north from A to C. *)
Definition namesake_stations : list (string * Q) :=
  [("A", 0%Q); ("B", 0%Q); ("C", 0%Q)].
Definition namesake_connections : list ConnectionRow :=
  [("A", "B", "L1", "N"); ("A", "C", "B", "N")].
Definition namesake_catalog : gmap string Station :=
  loaded namesake_stations namesake_connections.

(** ** Movement, in the words of the specification *)

(** A connection belongs to a line and runs in a direction. *)
Definition matches (ln co : string) (connection : Connection) : bool :=
  bool_decide (connection.1.2 = ln) && bool_decide (connection.2 = co).

(** One step of a train as the specification words it: reverse the course
    when no connection of the station matches line and course, then take
    the first connection of the station, in insertion order, whose line is
    the line of the train and whose direction is its course; stay and fail
    when there is none. *)
Definition move_by_line (self : Train) (station_catalog : gmap string Station)
  : result (bool * Train) :=
  match station_catalog !! station self with
  | None => Raise KeyError
  | Some st =>
      let self :=
        if existsb (matches (line self) (course self)) (connections st)
        then self else Train.reverse self in
      match find (matches (line self) (course self)) (connections st) with
      | Some connection =>
          Ok (true, mkTrain (train_name self) connection.1.1
                            (line self) (course self))
      | None => Ok (false, self)
      end
  end.

(** The station of the train has a connection of the line of the train. *)
Definition on_line (station_catalog : gmap string Station) (train : Train)
  : Prop :=
  ∃ st connection,
    station_catalog !! station train = Some st ∧
    connection ∈ connections st ∧ connection.1.2 = line train.

(** No connection of the station carries the line of the train in either
    course. *)
Definition no_track (station_catalog : gmap string Station) (train : Train)
  : Prop :=
  ∃ st, station_catalog !! station train = Some st ∧
    ∀ connection, connection ∈ connections st →
      connection.1.2 = line train →
      connection.2 ≠ course train ∧
      connection.2 ≠ course (Train.reverse train).

(** The names met at a station cannot be taken for one another: courses
    and directions are [N] or [S], and neither the line of the train nor a
    connecting station is called [N], [S], and no connecting station bears
    the name of the line of the train. *)
Definition plain_names (self : Train) (conns : list Connection) : Prop :=
  (course self = "N" ∨ course self = "S") ∧
  line self ≠ "N" ∧ line self ≠ "S" ∧
  ∀ connection, connection ∈ conns →
    connection.1.1 ≠ line self ∧
    connection.1.1 ≠ "N" ∧ connection.1.1 ≠ "S" ∧
    (connection.2 = "N" ∨ connection.2 = "S").

(** An oracle for the examples: its float is always [0]; asked for an
    element it answers the second one (the only one of a singleton), but
    the first one at draw 1. *)
Definition second_choice : Random :=
  mkRandom 0 (λ _, 0%Q) (λ n, match n with 1 => 0 | _ => 1 end).


(** ** The menus *)

(** The character [\n], as a string. *)
Definition newline : string := String (Ascii.ascii_of_nat 10) "".

(** [Train.lookup_info]: the line of text that describes a train. *)
Definition lookup_info (self : Train) : string :=
  if bool_decide (course self = "N")
  then ("Train " +:+ pretty (train_name self) +:+ " on " +:+ line self
        +:+ " line ")
       +:+ ("Northbound is at station " +:+ station self +:+ "." +:+ newline)
  else ("Train " +:+ pretty (train_name self) +:+ " on " +:+ line self
        +:+ " line ")
       +:+ ("Southbound is at station " +:+ station self +:+ "." +:+ newline).

(** [train_catalog[key]] on the items of the dictionary. *)
Fixpoint train_lookup (train_catalog : list (string * Train)) (key : string)
  : result Train :=
  match train_catalog with
  | [] => Raise KeyError
  | entry :: rest =>
      if bool_decide (entry.1 = key) then Ok entry.2
      else train_lookup rest key
  end.

(** What [submenu_2] prints once the choice of the user is read: the
    description of the train, or the complaint of the [except] branch. *)
Inductive train_report : Type :=
  | TrainInfo (text : string)
  | InvalidTrain.

Definition submenu_2 (train_catalog : list (string * Train)) (train : string)
  : train_report :=
  match train_lookup train_catalog train with
  | Ok self => TrainInfo (lookup_info self)
  | Raise _ => InvalidTrain
  end.

(** What [submenu_3] prints: one of its three answers, or the complaint of
    one of its three [except] branches. *)
Inductive route_report : Type :=
  | NoRouteFound
  | CannotBeReached
  | CanBeReached
  | InvalidStation     (* except KeyError *)
  | SameStation        (* except UserWarning *)
  | InvalidNumber.     (* except ValueError *)

(** [submenu_3], once the three inputs are read: [root] and [goal] are the
    two names in upper case, [steps] is what [int] made of the third input,
    [None] when it raised [ValueError].  An [IndexError] would not be
    caught. *)
Definition submenu_3 (station_catalog : gmap string Station)
    (root goal : string) (steps : option Z)
  : option (result route_report) :=
  match steps with
  | None => Some (Ok InvalidNumber)
  | Some steps =>
      if bool_decide (root = goal) then Some (Ok SameStation)
      else if bool_decide (steps < 0)%Z then Some (Ok InvalidNumber)
      else
        let graph := Station.build_graph station_catalog in
        match Station.breadth_first_pathfind graph root goal with
        | None => None
        | Some (Raise KeyError) => Some (Ok InvalidStation)
        | Some (Raise e) => Some (Raise e)
        | Some (Ok path) =>
            if bool_decide (length path = 0) then Some (Ok NoRouteFound)
            else if bool_decide (Z.of_nat (length (tail path)) > steps)%Z
                 then Some (Ok CannotBeReached)
                 else Some (Ok CanBeReached)
        end
  end.

(** Choice [1] of [simulation_menu], taken [n] times in a row. *)
Fixpoint simulate_turns (n : nat) (station_catalog : gmap string Station)
    (train_catalog : list (string * Train)) : Rand (list (string * Train)) :=
  match n with
  | O => rand_ret train_catalog
  | S n =>
      (draw train_catalog <- Train.simulate_turn station_catalog train_catalog;
       simulate_turns n station_catalog train_catalog)%rand
  end.

(** ** Further vocabulary *)

(** The entries that the rows with key [key] contribute, in row order. *)
Definition entries_of (key_of : ConnectionRow → string)
    (entry_of : ConnectionRow → Connection) (key : string)
    (rows : list ConnectionRow) : list Connection :=
  entry_of <$> filter (λ element, key_of element = key) rows.

(** A train stands at a station of the catalog. *)
Definition stands (station_catalog : gmap string Station)
    (entry : string * Train) : Prop :=
  is_Some (station_catalog !! station entry.2).

(** Two items of a train catalog differ in station and course at most. *)
Definition same_train (entry entry' : string * Train) : Prop :=
  entry'.1 = entry.1 ∧ train_name entry'.2 = train_name entry.2 ∧
  line entry'.2 = line entry.2.

(** * Properties *)

(** ** Loading the network *)

Section Load.

Implicit Types (catalog : gmap string Station) (element : ConnectionRow).

Lemma grows_refl catalog : grows catalog catalog.
Proof. split; [done|]. intros key st Hst. exists st. eauto. Qed.

Lemma grows_trans c1 c2 c3 : grows c1 c2 → grows c2 c3 → grows c1 c3.
Proof.
  intros [Hd12 H12] [Hd23 H23]. split; [congruence|].
  intros key st Hst.
  destruct (H12 _ _ Hst) as (st2 & Hst2 & Hq2 & Hin2).
  destruct (H23 _ _ Hst2) as (st3 & Hst3 & Hq3 & Hin3).
  exists st3. split_and!; [done|congruence|auto].
Qed.

Lemma append_connection_ok catalog key entry st :
  catalog !! key = Some st →
  ∃ catalog', Station.append_connection catalog key entry = Ok catalog' ∧
    grows catalog catalog' ∧
    ∃ st', catalog' !! key = Some st' ∧ entry ∈ connections st'.
Proof.
  intros Hst. unfold Station.append_connection. rewrite Hst.
  eexists. split; [reflexivity|]. split.
  - split.
    + rewrite dom_insert_L. apply elem_of_dom_2 in Hst.
      apply set_eq. intros k. rewrite elem_of_union, elem_of_singleton.
      naive_solver.
    + intros key' st0 Hst0. destruct (decide (key = key')) as [<-|Hne].
      * rewrite lookup_insert_eq. eexists. split; [reflexivity|].
        simplify_eq. simpl. split; [done|].
        intros e He. apply elem_of_app. by left.
      * rewrite lookup_insert_ne by done. exists st0. eauto.
  - rewrite lookup_insert_eq. eexists. split; [reflexivity|]. simpl.
    apply elem_of_app. right. by apply list_elem_of_singleton.
Qed.

Lemma append_connection_raise catalog key entry :
  catalog !! key = None →
  Station.append_connection catalog key entry = Raise KeyError.
Proof. intros Hst. unfold Station.append_connection. by rewrite Hst. Qed.

Section Loop.

Variables (key_of : ConnectionRow → string)
          (entry_of : ConnectionRow → Connection).

Local Abbreviation body :=
  (λ catalog element,
     Station.append_connection catalog (key_of element) (entry_of element)).

Lemma for_each_append_ok rows catalog :
  (∀ element, element ∈ rows → key_of element ∈ dom catalog) →
  ∃ catalog', for_each body rows catalog = Ok catalog' ∧
    grows catalog catalog' ∧
    ∀ element, element ∈ rows →
      ∃ st, catalog' !! key_of element = Some st ∧
            entry_of element ∈ connections st.
Proof.
  revert catalog. induction rows as [|element rows IH]; intros catalog Hkeys.
  - exists catalog. split; [done|]. split; [apply grows_refl|].
    intros element Hin. by apply elem_of_nil in Hin.
  - assert (is_Some (catalog !! key_of element)) as [st Hst].
    { apply elem_of_dom, Hkeys. left. }
    destruct (append_connection_ok catalog (key_of element)
                (entry_of element) st Hst)
      as (c1 & Hc1 & Hgrow1 & st1 & Hst1 & Hin1).
    destruct (IH c1) as (c2 & Hc2 & Hgrow2 & Hall).
    { intros el Hel. rewrite (proj1 Hgrow1). apply Hkeys. by right. }
    exists c2. split.
    { cbn. rewrite Hc1. cbn. exact Hc2. }
    split; [by eapply grows_trans|].
    intros el Hel. apply elem_of_cons in Hel as [->|Hel]; [|by apply Hall].
    destruct (proj2 Hgrow2 _ _ Hst1) as (st2 & Hst2 & _ & Hsub).
    exists st2. split; [done|]. by apply Hsub.
Qed.

Lemma for_each_append_raise rows catalog :
  (∃ element, element ∈ rows ∧ key_of element ∉ dom catalog) →
  for_each body rows catalog = Raise KeyError.
Proof.
  revert catalog. induction rows as [|element rows IH];
    intros catalog (el & Hel & Hmiss).
  - by apply elem_of_nil in Hel.
  - cbn.
    destruct (catalog !! key_of element) as [st|] eqn:Hst.
    + destruct (append_connection_ok catalog (key_of element)
                  (entry_of element) st Hst) as (c1 & Hc1 & Hgrow1 & _).
      rewrite Hc1. cbn. apply IH.
      apply elem_of_cons in Hel as [->|Hel].
      * apply elem_of_dom_2 in Hst. done.
      * exists el. split; [done|]. by rewrite (proj1 Hgrow1).
    + by rewrite append_connection_raise.
Qed.

Lemma for_each_append_inv rows catalog catalog' :
  for_each body rows catalog = Ok catalog' →
  grows catalog catalog' ∧
  ∀ element, element ∈ rows →
    ∃ st, catalog' !! key_of element = Some st ∧
          entry_of element ∈ connections st.
Proof.
  intros Hrun.
  destruct (decide (Forall (λ element, key_of element ∈ dom catalog) rows))
    as [Hall|Hnot].
  - rewrite Forall_forall in Hall.
    destruct (for_each_append_ok rows catalog Hall) as (c & Hc & Hres).
    rewrite Hrun in Hc. by injection Hc as <-.
  - apply not_Forall_Exists in Hnot; [|apply _].
    rewrite Exists_exists in Hnot.
    rewrite for_each_append_raise in Hrun; done.
Qed.

Lemma for_each_append_only rows catalog catalog' :
  for_each body rows catalog = Ok catalog' →
  ∀ key st' entry,
    catalog' !! key = Some st' → entry ∈ connections st' →
    (∃ st, catalog !! key = Some st ∧ entry ∈ connections st) ∨
    (∃ element, element ∈ rows ∧ key_of element = key
                ∧ entry_of element = entry).
Proof.
  revert catalog. induction rows as [|element rows IH]; intros catalog Hrun.
  - injection Hrun as <-. eauto.
  - cbn in Hrun.
    destruct (catalog !! key_of element) as [st0|] eqn:Hst0.
    2:{ by rewrite append_connection_raise in Hrun. }
    assert (Station.append_connection catalog (key_of element)
              (entry_of element)
            = Ok (<[key_of element := mkStation (name st0) (delay_constant st0)
                      (connections st0 ++ [entry_of element])]> catalog))
      as Happend.
    { unfold Station.append_connection. by rewrite Hst0. }
    rewrite Happend in Hrun. cbn in Hrun.
    intros key st' entry Hst' Hin.
    destruct (IH _ Hrun key st' entry Hst' Hin)
      as [(st1 & Hst1 & Hin1)|(el & Hel & Hkey & Hentry)].
    + rewrite lookup_insert in Hst1. case_decide as Hkey.
      * injection Hst1 as <-. simpl in Hin1. subst key.
        apply elem_of_app in Hin1 as [Hin1|Hin1]; [left; eauto|].
        apply list_elem_of_singleton in Hin1 as ->.
        right. exists element. split_and!; [left|done|done].
      * left. eauto.
    + right. exists el. split_and!; [by right|done|done].
Qed.

End Loop.

Lemma build_catalog_dom station_list key :
  key ∈ dom (Station.build_catalog station_list) ↔ key ∈ station_list.*1.
Proof.
  unfold Station.build_catalog.
  assert (∀ acc : gmap string Station,
    key ∈ dom (foldl (λ catalog row,
                        <[row.1 := mkStation row.1 row.2 []]> catalog)
                     acc station_list)
    ↔ key ∈ dom acc ∨ key ∈ station_list.*1) as Hgen.
  { induction station_list as [|row rows IH]; intros acc; simpl.
    - rewrite elem_of_nil. tauto.
    - rewrite IH, dom_insert_L, elem_of_union, elem_of_singleton,
        elem_of_cons. tauto. }
  rewrite Hgen, dom_empty_L. set_solver.
Qed.

Lemma build_catalog_fresh station_list key st :
  Station.build_catalog station_list !! key = Some st → connections st = [].
Proof.
  unfold Station.build_catalog.
  assert (∀ acc : gmap string Station,
    (∀ k s, acc !! k = Some s → connections s = []) →
    ∀ k s, foldl (λ catalog row,
                    <[row.1 := mkStation row.1 row.2 []]> catalog)
                 acc station_list !! k = Some s → connections s = [])
    as Hgen.
  { induction station_list as [|row rows IH]; intros acc Hacc; simpl.
    - exact Hacc.
    - apply IH. intros k s. rewrite lookup_insert.
      case_decide; [intros [= <-]; done | apply Hacc]. }
  apply (Hgen ∅). intros k s. by rewrite lookup_empty.
Qed.

(** The load succeeds exactly on the inputs whose rows name loaded
    stations only. *)
Lemma map_connections_accepts stations_list connections_list :
  (∀ element, element ∈ connections_list →
     Station.row_from element ∈ stations_list.*1 ∧
     Station.row_to element ∈ stations_list.*1) →
  ∃ catalog,
    Station.map_connections stations_list connections_list = Ok catalog.
Proof.
  intros Hrows. unfold Station.map_connections.
  destruct (for_each_append_ok Station.row_from Station.forward
              connections_list (Station.build_catalog stations_list))
    as (c1 & Hc1 & Hgrow1 & _).
  { intros el Hel. apply build_catalog_dom. by apply Hrows. }
  destruct (for_each_append_ok Station.row_to Station.inverse
              connections_list c1) as (c2 & Hc2 & _).
  { intros el Hel. rewrite (proj1 Hgrow1). apply build_catalog_dom.
    by apply Hrows. }
  exists c2. cbn. rewrite Hc1. cbn. exact Hc2.
Qed.

(** What a loaded catalog holds: the stations of the stations list, and in
    their connection lists nothing but the forward and the inverse entries
    of the rows. *)
Lemma map_connections_dom stations_list connections_list catalog key :
  Station.map_connections stations_list connections_list = Ok catalog →
  key ∈ dom catalog ↔ key ∈ stations_list.*1.
Proof.
  intros Hload. unfold Station.map_connections in Hload. cbn in Hload.
  destruct (for_each _ connections_list
              (Station.build_catalog stations_list)) as [c1|e] eqn:Hc1;
    [|done].
  cbn in Hload.
  apply for_each_append_inv in Hc1 as [[Hd1 _] _].
  apply for_each_append_inv in Hload as [[Hd2 _] _].
  rewrite Hd2, Hd1. apply build_catalog_dom.
Qed.

Lemma map_connections_entries stations_list connections_list catalog
    key st entry :
  Station.map_connections stations_list connections_list = Ok catalog →
  catalog !! key = Some st → entry ∈ connections st →
  ∃ element, element ∈ connections_list ∧
    ((key = Station.row_from element ∧ entry = Station.forward element) ∨
     (key = Station.row_to element ∧ entry = Station.inverse element)).
Proof.
  intros Hload Hst Hin. unfold Station.map_connections in Hload.
  cbn in Hload.
  destruct (for_each _ connections_list
              (Station.build_catalog stations_list)) as [c1|e] eqn:Hc1;
    [|done].
  cbn in Hload.
  destruct (for_each_append_only _ _ _ _ _ Hload key st entry Hst Hin)
    as [(st1 & Hst1 & Hin1)|(el & Hel & Hkey & Hentry)].
  - destruct (for_each_append_only _ _ _ _ _ Hc1 key st1 entry Hst1 Hin1)
      as [(st0 & Hst0 & Hin0)|(el & Hel & Hkey & Hentry)].
    + apply build_catalog_fresh in Hst0. rewrite Hst0 in Hin0.
      by apply elem_of_nil in Hin0.
    + exists el. split; [done|]. left. done.
  - exists el. split; [done|]. right. done.
Qed.

Lemma map_connections_rows_known stations_list connections_list catalog
    element :
  Station.map_connections stations_list connections_list = Ok catalog →
  element ∈ connections_list →
  Station.row_from element ∈ dom catalog ∧
  Station.row_to element ∈ dom catalog.
Proof.
  intros Hload Hel. unfold Station.map_connections in Hload.
  cbn in Hload.
  destruct (for_each _ connections_list
              (Station.build_catalog stations_list)) as [c1|e] eqn:Hc1;
    [|done].
  cbn in Hload.
  apply for_each_append_inv in Hc1 as [_ Hfwd].
  apply for_each_append_inv in Hload as [[Hdom _] Hinv].
  destruct (Hfwd _ Hel) as (st1 & Hst1 & _).
  destruct (Hinv _ Hel) as (st2 & Hst2 & _).
  split; [|by eapply elem_of_dom_2].
  rewrite Hdom. by eapply elem_of_dom_2.
Qed.

(** The graph derived from a loaded catalog is closed. *)
Lemma build_graph_closed stations_list connections_list catalog :
  Station.map_connections stations_list connections_list = Ok catalog →
  closed (Station.build_graph catalog).
Proof.
  intros Hload u v (ns & Hu & Hv). unfold Station.build_graph in *.
  rewrite lookup_fmap in Hu. rewrite lookup_fmap.
  destruct (catalog !! u) as [st|] eqn:Hst; [|done].
  injection Hu as <-. apply list_elem_of_fmap in Hv as (entry & -> & Hin).
  destruct (map_connections_entries _ _ _ _ _ _ Hload Hst Hin)
    as (el & Hel & Hcase).
  destruct (map_connections_rows_known _ _ _ _ Hload Hel) as [Hfrom Hto].
  apply elem_of_dom in Hfrom, Hto.
  destruct el as [[[a b] ln] dir].
  unfold Station.row_from, Station.row_to in Hfrom, Hto.
  simpl in Hfrom, Hto. destruct Hfrom as [sa Hsa], Hto as [sb Hsb].
  destruct Hcase as [[_ ->]|[_ ->]]; simpl.
  - rewrite Hsb. by eexists.
  - case_bool_decide; simpl; rewrite Hsa; by eexists.
Qed.

Lemma line_loaded :
  Station.map_connections line_stations line_connections = Ok line_catalog.
Proof. vm_compute. reflexivity. Qed.

Lemma namesake_loaded :
  Station.map_connections namesake_stations namesake_connections
  = Ok namesake_catalog.
Proof. vm_compute. reflexivity. Qed.

(** Every row has left its forward entry at its origin and its inverse
    entry at its destination. *)
Lemma map_connections_rows stations_list connections_list catalog element :
  Station.map_connections stations_list connections_list = Ok catalog →
  element ∈ connections_list →
  (∃ st, catalog !! Station.row_from element = Some st
         ∧ Station.forward element ∈ connections st) ∧
  (∃ st, catalog !! Station.row_to element = Some st
         ∧ Station.inverse element ∈ connections st).
Proof.
  intros Hload Hrow. unfold Station.map_connections in Hload.
  cbn in Hload.
  destruct (for_each _ connections_list
              (Station.build_catalog stations_list)) as [c1|e] eqn:Hc1;
    [|done].
  cbn in Hload.
  apply for_each_append_inv in Hc1 as [_ Hfwd].
  apply for_each_append_inv in Hload as [Hgrow Hinv].
  split.
  - destruct (Hfwd _ Hrow) as (st & Hst & Hin).
    destruct (proj2 Hgrow _ _ Hst) as (st' & Hst' & _ & Hsub).
    exists st'. split; [done|]. by apply Hsub.
  - destruct (Hinv _ Hrow) as (st & Hst & Hin). by exists st.
Qed.

(** C4. Connection symmetry after load: when [map_connections] accepts
    its input, every row [(a, b, line, dir)] of the connections list, with
    [dir] north or south, has left the forward entry [(b, line, dir)] in
    the connection list of [a] and the inverse entry
    [(a, line, opposite dir)] in the connection list of [b]. *)
Theorem map_connections_symmetric stations_list connections_list catalog
    (a b ln dir : string) :
  Station.map_connections stations_list connections_list = Ok catalog →
  (a, b, ln, dir) ∈ connections_list →
  dir = "N" ∨ dir = "S" →
  (∃ st, catalog !! a = Some st ∧ (b, ln, dir) ∈ connections st) ∧
  (∃ st, catalog !! b = Some st ∧ (a, ln, opposite dir) ∈ connections st).
Proof.
  intros Hload Hrow Hdir.
  destruct (map_connections_rows _ _ _ _ Hload Hrow) as [Hfwd Hinv].
  split; [exact Hfwd|]. destruct Hdir as [-> | ->]; exact Hinv.
Qed.

Lemma map_connections_symmetric_witness :
  Station.map_connections line_stations line_connections = Ok line_catalog ∧
  ("A", "B", "L1", "N") ∈ line_connections ∧
  ("N" = "N" ∨ "N" = "S") ∧
  (∃ st, line_catalog !! "A" = Some st ∧ ("B", "L1", "N") ∈ connections st) ∧
  (∃ st, line_catalog !! "B" = Some st
         ∧ ("A", "L1", opposite "N") ∈ connections st).
Proof.
  assert (("A", "B", "L1", "N") ∈ line_connections) as Hrow by left.
  assert ("N" = "N" ∨ "N" = "S") as Hdir by (left; reflexivity).
  split_and!; [exact line_loaded | exact Hrow | exact Hdir | |];
    apply (map_connections_symmetric line_stations line_connections
             line_catalog "A" "B" "L1" "N" line_loaded Hrow Hdir).
Defined.

(** C7. Load referential integrity: when a row of the connections list
    names a station, as origin or as destination, that is not among the
    loaded stations, [map_connections] raises (the [KeyError] of the
    failed catalog lookup) and produces no catalog. *)
Theorem map_connections_unknown_station stations_list connections_list
    element :
  element ∈ connections_list →
  Station.row_from element ∉ stations_list.*1
    ∨ Station.row_to element ∉ stations_list.*1 →
  Station.map_connections stations_list connections_list = Raise KeyError.
Proof.
  intros Hrow Hmiss. unfold Station.map_connections. cbn.
  destruct (for_each _ connections_list
              (Station.build_catalog stations_list)) as [c1|e] eqn:Hc1.
  - cbn. pose proof Hc1 as Hc1'.
    apply for_each_append_inv in Hc1' as [Hgrow Hfwd].
    apply for_each_append_raise. exists element. split; [done|].
    rewrite (proj1 Hgrow), build_catalog_dom.
    destruct Hmiss as [Hfrom|Hto]; [|done].
    destruct (Hfwd _ Hrow) as (st & Hst & _).
    apply elem_of_dom_2 in Hst. rewrite (proj1 Hgrow) in Hst.
    by apply build_catalog_dom in Hst.
  - cbn.
    destruct (decide (Forall (λ el, Station.row_from el
                ∈ dom (Station.build_catalog stations_list))
                connections_list)) as [Hall|Hnot].
    + rewrite Forall_forall in Hall.
      destruct (for_each_append_ok Station.row_from Station.forward
                  connections_list _ Hall) as (c & Hc & _).
      rewrite Hc1 in Hc. done.
    + apply not_Forall_Exists in Hnot; [|apply _].
      rewrite Exists_exists in Hnot.
      rewrite for_each_append_raise in Hc1 by done. by injection Hc1 as <-.
Qed.

Lemma map_connections_unknown_station_witness :
  let element : ConnectionRow := ("A", "Z", "L1", "N") in
  element ∈ [element] ∧
  (Station.row_from element ∉ line_stations.*1
   ∨ Station.row_to element ∉ line_stations.*1) ∧
  Station.map_connections line_stations [element] = Raise KeyError.
Proof.
  intros element.
  assert (element ∈ [element]) as Hrow by left.
  assert (Station.row_from element ∉ line_stations.*1
          ∨ Station.row_to element ∉ line_stations.*1) as Hmiss.
  { right. intros Hin. simpl in Hin.
    repeat (apply elem_of_cons in Hin as [Hin|Hin]; [discriminate|]).
    by apply elem_of_nil in Hin. }
  split_and!; [exact Hrow | exact Hmiss |].
  exact (map_connections_unknown_station line_stations [element] element
           Hrow Hmiss).
Defined.

End Load.

(** ** The path search *)

Section Routes.

Variables (graph : gmap string (list string)) (start : string).

Lemma route_last p v : route graph start p v → last p = Some v.
Proof. destruct 1; [done | apply last_snoc]. Qed.

Lemma route_head p v : route graph start p v → head p = Some start.
Proof.
  induction 1 as [|p u v Hp IH He]; [done|].
  destruct p; [done | exact IH].
Qed.

Lemma route_length p v : route graph start p v → 1 ≤ length p.
Proof. destruct 1; [simpl; lia | rewrite length_app; simpl; lia]. Qed.

Lemma route_joined p v : route graph start p v → joined graph p.
Proof.
  induction 1 as [|p u v Hp IH He]; intros i a b Ha Hb.
  - destruct i; simplify_eq/=.
  - destruct (decide (S i < length p)) as [Hlt|Hge].
    + rewrite lookup_app_l in Ha by lia. rewrite lookup_app_l in Hb by lia.
      by eapply IH.
    + assert (S i = length p) as Hi.
      { apply lookup_lt_Some in Hb. rewrite length_app in Hb.
        simpl in Hb. lia. }
      rewrite lookup_app_l in Ha by lia.
      rewrite lookup_app_r in Hb by lia.
      replace (S i - length p) with 0 in Hb by lia. simplify_eq/=.
      apply route_last in Hp. rewrite last_lookup in Hp.
      replace (pred (length p)) with i in Hp by lia.
      by simplify_eq.
Qed.

Lemma route_path_between p v :
  route graph start p v → path_between graph start v p.
Proof.
  intros Hp. split_and!;
    [by eapply route_head | by eapply route_last | by eapply route_joined].
Qed.

Lemma path_between_route p v :
  path_between graph start v p → route graph start p v.
Proof.
  revert v. induction p as [|x p IH] using rev_ind; intros v (Hh & Hl & Hj).
  - done.
  - rewrite last_snoc in Hl. injection Hl as ->.
    destruct p as [|y p' _] using rev_ind.
    + simpl in Hh. injection Hh as ->. constructor.
    + apply (route_step _ _ _ y).
      * apply IH. split_and!.
        -- destruct p'; [exact Hh|exact Hh].
        -- apply last_snoc.
        -- intros i a b Ha Hb. apply (Hj i).
           ++ apply lookup_app_l_Some. exact Ha.
           ++ apply lookup_app_l_Some. exact Hb.
      * apply (Hj (length p')).
        -- rewrite lookup_app_l by (rewrite length_app; simpl; lia).
           rewrite lookup_app_r by lia.
           by replace (length p' - length p') with 0 by lia.
        -- rewrite lookup_app_r by (rewrite length_app; simpl; lia).
           rewrite length_app. simpl.
           by replace (S (length p') - (length p' + 1)) with 0 by lia.
Qed.

(** A path of at least one hop is a route followed by an edge. *)
Lemma path_between_hop p v :
  path_between graph start v p → 2 ≤ length p →
  ∃ w u, p = w ++ [v] ∧ route graph start w u ∧ edge graph u v.
Proof.
  intros Hp Hlen. apply path_between_route in Hp.
  destruct Hp as [|w u v Hw He]; [simpl in Hlen; lia|]. eauto.
Qed.

Lemma route_in_graph p v :
  closed graph → is_Some (graph !! start) →
  route graph start p v → is_Some (graph !! v).
Proof. intros Hclosed Hstart. destruct 1; [done | by eapply Hclosed]. Qed.

End Routes.

Section Search.

Variables (graph : gmap string (list string)) (start goal : string).

(** The inner loop, in closed form. *)
Lemma extend_spec search_path neighbours queue :
  Station.extend goal search_path neighbours queue =
  if bool_decide (goal ∈ neighbours) then inl (search_path ++ [goal])
  else inr (queue ++ ((λ n, search_path ++ [n]) <$> neighbours)).
Proof.
  revert queue. induction neighbours as [|n rest IH]; intros queue.
  - simpl. by rewrite app_nil_r.
  - cbn [Station.extend]. rewrite IH, fmap_cons, <- app_assoc.
    repeat case_bool_decide; simplify_eq; try done; set_solver.
Qed.

(** *** Termination *)

Lemma pending_explore explored u neighbours :
  graph !! u = Some neighbours → u ∉ explored →
  Station.pending graph (explored ++ [u]) + length neighbours
    ≤ Station.pending graph explored.
Proof.
  intros Hu Hnew. apply elem_of_map_to_list in Hu. unfold Station.pending.
  revert Hu. generalize (map_to_list graph) as l.
  assert (∀ l : list (string * list string),
    sum_list ((λ kv, if bool_decide (kv.1 ∈ explored ++ [u]) then 0
                     else length kv.2) <$> l)
    ≤ sum_list ((λ kv, if bool_decide (kv.1 ∈ explored) then 0
                       else length kv.2) <$> l)) as Hmono.
  { induction l as [|kv l IH]; csimpl; [lia|].
    repeat case_bool_decide; try lia. set_solver. }
  induction l as [|kv l IH]; intros Hin.
  - by apply elem_of_nil in Hin.
  - csimpl. apply elem_of_cons in Hin as [<-|Hin].
    + csimpl. rewrite bool_decide_eq_true_2 by set_solver.
      rewrite bool_decide_eq_false_2 by done.
      specialize (Hmono l). lia.
    + specialize (IH Hin).
      repeat case_bool_decide; try lia. set_solver.
Qed.

(** The loop ends within the iterations it is given, on every graph. *)
Lemma bfs_loop_terminates fuel explored queue :
  length queue + Station.pending graph explored < fuel →
  is_Some (Station.bfs_loop fuel graph goal explored queue).
Proof.
  revert explored queue.
  induction fuel as [|fuel IH]; intros explored queue Hfuel; [lia|].
  simpl. destruct queue as [|search_path queue]; [done|].
  destruct (last search_path) as [station|]; [|done].
  simpl in Hfuel. case_bool_decide as Hexp.
  - apply IH. lia.
  - destruct (graph !! station) as [neighbours|] eqn:Hst; [|done].
    rewrite extend_spec. case_bool_decide; [done|].
    apply IH. rewrite length_app, length_fmap.
    pose proof (pending_explore explored station neighbours Hst Hexp). lia.
Qed.

(** So the search itself always ends, on every graph. *)
Lemma breadth_first_pathfind_terminates :
  is_Some (Station.breadth_first_pathfind graph start goal).
Proof.
  apply bfs_loop_terminates. unfold Station.bfs_fuel. simpl. lia.
Qed.

(** More iterations than needed do not change the answer. *)
Lemma bfs_loop_fuel_mono fuel fuel' explored queue r :
  Station.bfs_loop fuel graph goal explored queue = Some r →
  fuel ≤ fuel' →
  Station.bfs_loop fuel' graph goal explored queue = Some r.
Proof.
  revert fuel' explored queue.
  induction fuel as [|fuel IH]; intros fuel' explored queue Hrun Hle;
    [done|].
  destruct fuel' as [|fuel']; [lia|]. simpl in *.
  destruct queue as [|search_path queue]; [done|].
  destruct (last search_path) as [station|]; [|done].
  case_bool_decide.
  - apply IH; [done|lia].
  - destruct (graph !! station) as [neighbours|]; [|done].
    destruct (Station.extend goal search_path neighbours queue);
      [done|]. apply IH; [done|lia].
Qed.

(** *** The loop keeps its state *)

Hypothesis graph_closed : closed graph.
Hypothesis start_known : is_Some (graph !! start).

Local Abbreviation state := (search_state graph start goal).
Local Abbreviation answer := (search_answer graph start goal).

Lemma search_state_initial : state 1 [] [[start]] [].
Proof.
  split.
  - lia.
  - intros q Hq%list_elem_of_singleton. subst q.
    split; [eexists; constructor | done].
  - intros q Hq. by apply elem_of_nil in Hq.
  - intros w v Hw Hlen. apply route_length in Hw. lia.
  - intros w v Hw Hlen. right. exists [start].
    split; [by apply list_elem_of_singleton|].
    destruct Hw as [|w u v Hw He]; [done|].
    apply route_length in Hw. rewrite length_app in Hlen. simpl in Hlen. lia.
  - intros u v Hu. by apply elem_of_nil in Hu.
  - intros u Hu. by apply elem_of_nil in Hu.
Qed.

Lemma search_state_relevel m explored back :
  state m explored [] back → state (S m) explored back [].
Proof.
  intros [Hm Hf Hb Hlow Hlev Hfr Hg].
  assert (∀ w v, route graph start w v → length w = m → v ∈ explored)
    as Hlev'.
  { intros w v Hw Hlen. destruct (Hlev w v Hw Hlen) as [|(q & Hq & _)];
      [done | by apply elem_of_nil in Hq]. }
  split.
  - lia.
  - exact Hb.
  - intros q Hq. by apply elem_of_nil in Hq.
  - intros w v Hw Hlen. destruct (decide (length w = m)); [eauto|].
    apply (Hlow w); [done|lia].
  - intros w v Hw Hlen. destruct Hw as [|w u v Hw He].
    { simpl in Hlen. lia. }
    rewrite length_app in Hlen. simpl in Hlen.
    apply (Hfr u v); [|done]. apply (Hlev' w); [done|lia].
  - intros u v Hu He. rewrite app_nil_r. by apply (Hfr u v).
  - exact Hg.
Qed.

Lemma search_state_skip m explored p front back u :
  state m explored (p :: front) back →
  last p = Some u → u ∈ explored →
  state m explored front back.
Proof.
  intros [Hm Hf Hb Hlow Hlev Hfr Hg] Hlast Hu. split; try done.
  - intros q Hq. apply Hf. by right.
  - intros w v Hw Hlen.
    destruct (Hlev w v Hw Hlen) as [|(q & Hq & Hqv)]; [by left|].
    apply elem_of_cons in Hq as [->|Hq]; [|right; eauto].
    left. congruence.
  - intros a v Ha He.
    destruct (Hfr a v Ha He) as [|(q & Hq & Hqv)]; [by left|].
    simpl in Hq. apply elem_of_cons in Hq as [->|Hq]; [|right; eauto].
    left. congruence.
Qed.

Lemma search_state_explore m explored p front back u neighbours :
  state m explored (p :: front) back →
  last p = Some u → graph !! u = Some neighbours → goal ∉ neighbours →
  state m (explored ++ [u]) front
        (back ++ ((λ n, p ++ [n]) <$> neighbours)).
Proof.
  intros [Hm Hf Hb Hlow Hlev Hfr Hg] Hlast Hu Hgoal.
  destruct (Hf p) as [[u' Hp] Hlen]; [left|].
  assert (u' = u) as -> by (apply route_last in Hp; congruence).
  split.
  - done.
  - intros q Hq. apply Hf. by right.
  - intros q Hq. apply elem_of_app in Hq as [Hq|Hq]; [by apply Hb|].
    apply list_elem_of_fmap in Hq as (n & -> & Hn). split.
    + exists n. apply (route_step _ _ _ u); [done|]. exists neighbours. eauto.
    + rewrite length_app. simpl. lia.
  - intros w v Hw Hw_len. apply elem_of_app. left. by apply (Hlow w).
  - intros w v Hw Hw_len.
    destruct (Hlev w v Hw Hw_len) as [|(q & Hq & Hqv)].
    { left. apply elem_of_app. by left. }
    apply elem_of_cons in Hq as [->|Hq]; [|right; eauto].
    left. apply elem_of_app. right. apply list_elem_of_singleton. congruence.
  - intros a v Ha He. apply elem_of_app in Ha as [Ha|Ha].
    + destruct (Hfr a v Ha He) as [|(q & Hq & Hqv)].
      { left. apply elem_of_app. by left. }
      simpl in Hq. apply elem_of_cons in Hq as [->|Hq].
      * left. apply elem_of_app. right. apply list_elem_of_singleton.
        congruence.
      * right. exists q. split; [|done].
        apply elem_of_app in Hq as [Hq|Hq]; set_solver.
    + apply list_elem_of_singleton in Ha as ->.
      destruct He as (ns & Hns & Hv). assert (ns = neighbours) as ->
        by congruence.
      right. exists (p ++ [v]). split; [|apply last_snoc].
      apply elem_of_app. right. apply elem_of_app. right.
      apply list_elem_of_fmap. eauto.
  - intros a Ha He. apply elem_of_app in Ha as [Ha|Ha]; [by eapply Hg|].
    apply list_elem_of_singleton in Ha as ->.
    destruct He as (ns & Hns & Hv). congruence.
Qed.

Lemma search_state_found m explored p front back u neighbours :
  state m explored (p :: front) back →
  last p = Some u → graph !! u = Some neighbours → goal ∈ neighbours →
  answer (p ++ [goal]).
Proof.
  intros [Hm Hf Hb Hlow Hlev Hfr Hg] Hlast Hu Hgoal.
  destruct (Hf p) as [[u' Hp] Hlen]; [left|].
  assert (u' = u) as -> by (apply route_last in Hp; congruence).
  right. exists p, u. split_and!; [done|done|by exists neighbours|].
  intros w v Hw He. destruct (decide (length p ≤ length w)); [done|].
  exfalso. apply (Hg v); [|done]. apply (Hlow w); [done|lia].
Qed.

Lemma search_state_drained m explored :
  state m explored [] [] → answer [].
Proof.
  intros [Hm Hf Hb Hlow Hlev Hfr Hg]. left. split; [done|].
  assert (∀ w u, route graph start w u → u ∈ explored) as Hall.
  { induction 1 as [|w u v Hw IH He].
    - destruct (decide (1 = m)) as [Heq|Hne].
      + destruct (Hlev [start] start) as [|(q & Hq & _)];
          [constructor|done|done|by apply elem_of_nil in Hq].
      + apply (Hlow [start]); [constructor|simpl; lia].
    - destruct (Hfr u v IH He) as [|(q & Hq & _)];
        [done|by apply elem_of_nil in Hq]. }
  intros w u Hw. apply Hg. by eapply Hall.
Qed.

(** The loop, started in such a state, ends with the answer. *)
Lemma bfs_loop_answer fuel m explored front back :
  state m explored front back →
  length (front ++ back) + Station.pending graph explored < fuel →
  ∃ r, Station.bfs_loop fuel graph goal explored (front ++ back)
         = Some (Ok r) ∧ answer r.
Proof.
  revert m explored front back.
  induction fuel as [|fuel IH]; intros m explored front back Hst Hfuel;
    [lia|].
  assert (∀ m p front back,
    state m explored (p :: front) back →
    length (p :: front ++ back) + Station.pending graph explored < S fuel →
    ∃ r, Station.bfs_loop (S fuel) graph goal explored (p :: front ++ back)
           = Some (Ok r) ∧ answer r) as Hstep.
  { clear m front back Hst Hfuel. intros m p front back Hst Hfuel.
    destruct (state_front _ _ _ _ _ _ _ Hst p) as [[u Hp] Hlen]; [left|].
    pose proof (route_last _ _ _ _ Hp) as Hlast.
    cbn [Station.bfs_loop]. rewrite Hlast. simpl in Hfuel.
    case_bool_decide as Hexp.
    - apply (IH m). { by eapply search_state_skip. } lia.
    - destruct (route_in_graph _ _ _ _ graph_closed start_known Hp)
        as [neighbours Hu].
      rewrite Hu, extend_spec. case_bool_decide as Hgoal.
      + eexists. split; [done|]. by eapply search_state_found.
      + rewrite <- app_assoc. apply (IH m).
        { by eapply search_state_explore. }
        rewrite app_assoc, length_app, length_fmap.
        pose proof (pending_explore explored u neighbours Hu Hexp). lia. }
  destruct front as [|p front].
  - destruct back as [|p back].
    + exists []. split; [done|]. by eapply search_state_drained.
    + apply search_state_relevel in Hst.
      specialize (Hstep (S m) p back [] Hst). rewrite app_nil_r in Hstep.
      apply Hstep. exact Hfuel.
  - apply (Hstep m); done.
Qed.

(** [breadth_first_pathfind] on a closed graph, from a station of it. *)
Lemma breadth_first_pathfind_answer :
  ∃ r, Station.breadth_first_pathfind graph start goal = Some (Ok r)
       ∧ answer r.
Proof.
  unfold Station.breadth_first_pathfind.
  apply (bfs_loop_answer _ 1 [] [[start]] []).
  - apply search_state_initial.
  - unfold Station.bfs_fuel. simpl. lia.
Qed.

End Search.

(** *** What the answer means for paths *)

Lemma search_answer_empty graph start goal :
  search_answer graph start goal [] →
  ∀ p, path_between graph start goal p → length p < 2.
Proof.
  intros [[_ Hnone]|(p & u & Hr & _)] w Hw.
  - destruct (decide (length w < 2)); [done|].
    destruct (path_between_hop graph start w goal Hw)
      as (w' & u & -> & Hw' & He); [lia|].
    by destruct (Hnone w' u).
  - by destruct p.
Qed.

Lemma search_answer_path graph start goal r :
  search_answer graph start goal r → r ≠ [] →
  path_between graph start goal r ∧ 2 ≤ length r ∧
  ∀ p, path_between graph start goal p → 2 ≤ length p → length r ≤ length p.
Proof.
  intros [[-> _]|(p & u & -> & Hp & He & Hmin)] Hr; [done|].
  split_and!.
  - apply route_path_between. by apply (route_step _ _ _ u).
  - apply route_length in Hp. rewrite length_app. simpl. lia.
  - intros w Hw Hlen.
    destruct (path_between_hop graph start w goal Hw Hlen)
      as (w' & v & -> & Hw' & Hv).
    specialize (Hmin w' v Hw' Hv). rewrite !length_app. simpl. lia.
Qed.

Lemma path_between_distinct graph start goal p :
  path_between graph start goal p → start ≠ goal → 2 ≤ length p.
Proof.
  intros (Hh & Hl & _) Hne. destruct p as [|x [|y p]]; simpl; [done| |lia].
  simpl in *. congruence.
Qed.

(** C1, as amended. Minimality of the search between two different
    stations: on a closed graph, when the goal is reachable from a start
    station of the graph other than the goal, the search returns a path
    from start to goal whose number of hops (its length minus one) is the
    true minimum hop count. *)
Theorem breadth_first_pathfind_minimal graph start goal :
  closed graph → is_Some (graph !! start) →
  start ≠ goal → reachable graph start goal →
  ∃ r, Station.breadth_first_pathfind graph start goal = Some (Ok r) ∧
       path_between graph start goal r ∧
       minimum_hops graph start goal (hops r).
Proof.
  intros Hclosed Hstart Hne [w Hw].
  destruct (breadth_first_pathfind_answer graph start goal Hclosed Hstart)
    as (r & Hrun & Hans).
  exists r. split; [done|].
  assert (r ≠ []) as Hr.
  { intros ->. pose proof (search_answer_empty _ _ _ Hans w Hw).
    pose proof (path_between_distinct _ _ _ _ Hw Hne). lia. }
  destruct (search_answer_path _ _ _ _ Hans Hr) as (Hpath & Hlen & Hmin).
  split; [done|]. split; [by exists r|].
  intros p Hp. pose proof (path_between_distinct _ _ _ _ Hp Hne).
  specialize (Hmin p Hp). unfold hops. lia.
Qed.

Lemma breadth_first_pathfind_minimal_witness :
  let graph := Station.build_graph line_catalog in
  closed graph ∧ is_Some (graph !! "A") ∧ "A" ≠ "C" ∧
  reachable graph "A" "C" ∧
  ∃ r, Station.breadth_first_pathfind graph "A" "C" = Some (Ok r) ∧
       path_between graph "A" "C" r ∧ minimum_hops graph "A" "C" (hops r).
Proof.
  intros graph.
  assert (closed graph) as Hclosed
    by exact (build_graph_closed _ _ _ line_loaded).
  assert (is_Some (graph !! "A")) as Hstart by (vm_compute; eauto).
  assert ("A" ≠ "C") as Hne by discriminate.
  assert (reachable graph "A" "C") as Hreach.
  { exists ["A"; "B"; "C"]. apply route_path_between.
    apply (route_step _ _ ["A"; "B"] "B"); [|by exists ["C"; "A"]; vm_compute;
      split; [|set_solver]].
    apply (route_step _ _ ["A"] "A"); [constructor|].
    exists ["B"]. vm_compute. split; [done|set_solver]. }
  split_and!; [done..|].
  exact (breadth_first_pathfind_minimal graph "A" "C" Hclosed Hstart Hne Hreach).
Defined.

(** C1, as stated, fails when start and goal are the same station: the
    goal is reachable in zero hops, and the search returns a cycle. *)
Lemma breadth_first_pathfind_not_minimal_at_start :
  let graph := Station.build_graph line_catalog in
  closed graph ∧ is_Some (graph !! "A") ∧ reachable graph "A" "A" ∧
  ¬ ∃ r, Station.breadth_first_pathfind graph "A" "A" = Some (Ok r) ∧
         minimum_hops graph "A" "A" (hops r).
Proof.
  intros graph.
  assert (path_between graph "A" "A" ["A"]) as Htrivial.
  { apply route_path_between. constructor. }
  split_and!.
  - exact (build_graph_closed _ _ _ line_loaded).
  - vm_compute. eauto.
  - by exists ["A"].
  - intros (r & Hrun & _ & Hmin).
    assert (Station.breadth_first_pathfind graph "A" "A"
            = Some (Ok ["A"; "B"; "A"])) as Hrun' by (vm_compute; reflexivity).
    rewrite Hrun' in Hrun. injection Hrun as <-.
    specialize (Hmin ["A"] Htrivial). vm_compute in Hmin. lia.
Qed.

(** C8. Emptiness of the search: on a closed graph and from a station of
    it, the search returns the empty list when the goal is unreachable from
    the start; and when the start station has no connections at all, the
    queue drains and the result is empty, whatever the goal. *)
Theorem breadth_first_pathfind_unreachable graph start goal :
  closed graph → is_Some (graph !! start) →
  (¬ reachable graph start goal →
   Station.breadth_first_pathfind graph start goal = Some (Ok [])) ∧
  (graph !! start = Some [] →
   Station.breadth_first_pathfind graph start goal = Some (Ok [])).
Proof.
  intros Hclosed Hstart.
  destruct (breadth_first_pathfind_answer graph start goal Hclosed Hstart)
    as (r & Hrun & Hans).
  rewrite Hrun. split.
  - intros Hnone. destruct (decide (r = [])) as [->|Hr]; [done|].
    destruct (search_answer_path _ _ _ _ Hans Hr) as (Hpath & _).
    destruct Hnone. by exists r.
  - intros Hnil. destruct (decide (r = [])) as [->|Hr]; [done|].
    destruct (search_answer_path _ _ _ _ Hans Hr) as (Hpath & Hlen & _).
    destruct Hpath as (Hh & _ & Hj).
    destruct r as [|x [|y r]]; simpl in Hlen; [lia..|].
    simpl in Hh. injection Hh as ->.
    destruct (Hj 0 start y) as (ns & Hns & Hy); [done..|].
    rewrite Hnil in Hns. injection Hns as <-. by apply elem_of_nil in Hy.
Qed.

(** The network A - B and a station C that no connection reaches: from A
    the goal C is unreachable, and C has no connections. *)
Lemma breadth_first_pathfind_unreachable_witness :
  let graph :=
    Station.build_graph
      (loaded [("A", 0%Q); ("B", 0%Q); ("C", 0%Q)] [("A", "B", "L1", "N")]) in
  closed graph ∧ is_Some (graph !! "C") ∧ graph !! "C" = Some [] ∧
  ¬ reachable graph "C" "A" ∧
  Station.breadth_first_pathfind graph "C" "A" = Some (Ok []).
Proof.
  intros graph.
  assert (closed graph) as Hclosed.
  { apply (build_graph_closed
             [("A", 0%Q); ("B", 0%Q); ("C", 0%Q)] [("A", "B", "L1", "N")]).
    vm_compute. reflexivity. }
  assert (graph !! "C" = Some []) as Hnil by (vm_compute; reflexivity).
  assert (is_Some (graph !! "C")) as Hstart by (rewrite Hnil; eauto).
  assert (¬ reachable graph "C" "A") as Hnone.
  { intros (p & Hh & Hl & Hj). destruct p as [|x [|y p]]; simplify_eq/=.
    destruct (Hj 0 "C" y) as (ns & Hns & Hy); [done..|].
    rewrite Hnil in Hns. simplify_eq. by apply elem_of_nil in Hy. }
  split_and!; [done..|].
  destruct (breadth_first_pathfind_unreachable graph "C" "A" Hclosed Hstart)
    as [Hunreachable Hisolated].
  exact (Hunreachable Hnone).
Defined.

(** C10. Search from a station to itself: on a closed graph, for a station
    [s] of it, the search returns a result that is never the one-station
    path [[s]]; a result that is not empty has at least two stations, begins
    and ends at [s] and follows edges of the graph; and the result is empty
    exactly when no path of at least one hop leads from [s] back to [s]. *)
Theorem breadth_first_pathfind_same_station graph s :
  closed graph → is_Some (graph !! s) →
  ∃ r, Station.breadth_first_pathfind graph s s = Some (Ok r) ∧
       r ≠ [s] ∧
       (r ≠ [] → 2 ≤ length r ∧ head r = Some s ∧ last r = Some s
                 ∧ joined graph r) ∧
       (r = [] ↔ ¬ ∃ p, path_between graph s s p ∧ 1 ≤ hops p).
Proof.
  intros Hclosed Hstart.
  destruct (breadth_first_pathfind_answer graph s s Hclosed Hstart)
    as (r & Hrun & Hans).
  exists r. split; [done|].
  assert (r ≠ [] → 2 ≤ length r ∧ path_between graph s s r) as Hpath.
  { intros Hr. destruct (search_answer_path _ _ _ _ Hans Hr) as (? & ? & _).
    done. }
  split_and!.
  - intros ->. destruct Hpath as [Hlen _]; [done|]. simpl in Hlen. lia.
  - intros Hr. destruct (Hpath Hr) as (Hlen & Hh & Hl & Hj). done.
  - split.
    + intros -> (p & Hp & Hlen).
      pose proof (search_answer_empty _ _ _ Hans p Hp). unfold hops in Hlen.
      lia.
    + intros Hnone. destruct (decide (r = [])) as [|Hr]; [done|].
      destruct (Hpath Hr) as [Hlen Hp]. destruct Hnone. exists r.
      split; [done|]. unfold hops. lia.
Qed.

Lemma breadth_first_pathfind_same_station_witness :
  let graph := Station.build_graph line_catalog in
  closed graph ∧ is_Some (graph !! "B") ∧
  ∃ r, Station.breadth_first_pathfind graph "B" "B" = Some (Ok r) ∧
       r ≠ ["B"] ∧
       (r ≠ [] → 2 ≤ length r ∧ head r = Some "B" ∧ last r = Some "B"
                 ∧ joined graph r) ∧
       (r = [] ↔ ¬ ∃ p, path_between graph "B" "B" p ∧ 1 ≤ hops p).
Proof.
  intros graph.
  assert (closed graph) as Hclosed
    by exact (build_graph_closed _ _ _ line_loaded).
  assert (is_Some (graph !! "B")) as Hstart by (vm_compute; eauto).
  split_and!; [done..|].
  exact (breadth_first_pathfind_same_station graph "B" Hclosed Hstart).
Defined.

(** ** Drawing from the oracle *)

Section Oracle.

Context {A B : Type}.

Lemma choice_ok (seq : list A) rnd :
  seq ≠ [] → ∃ x, x ∈ seq ∧ choice seq rnd = Ok (x, advance rnd).
Proof.
  intros Hseq. unfold choice.
  destruct (lookup_lt_is_Some_2 seq
              (integer rnd (position rnd) `mod` length seq)) as [x Hx].
  { apply Nat.mod_upper_bound. by destruct seq. }
  rewrite Hx. exists x. split; [by eapply list_elem_of_lookup_2 | done].
Qed.

Lemma choice_inv (seq : list A) rnd x rnd' :
  choice seq rnd = Ok (x, rnd') → x ∈ seq ∧ rnd' = advance rnd.
Proof.
  unfold choice. destruct (seq !! _) as [y|] eqn:Hy; [|done].
  intros [= <- <-]. split; [by eapply list_elem_of_lookup_2 | done].
Qed.

Lemma choice_empty rnd : choice (@nil A) rnd = Raise IndexError.
Proof. reflexivity. Qed.

Lemma rand_map_cons (body : A → Rand B) x xs rnd :
  rand_map body (x :: xs) rnd =
  match body x rnd with
  | Ok (y, rnd1) =>
      match rand_map body xs rnd1 with
      | Ok (ys, rnd2) => Ok (y :: ys, rnd2)
      | Raise e => Raise e
      end
  | Raise e => Raise e
  end.
Proof.
  cbn [rand_map]. unfold rand_bind. destruct (body x rnd) as [[y rnd1]|e];
    [|done].
  by destruct (rand_map body xs rnd1) as [[ys rnd2]|e].
Qed.

(** A loop whose body cannot raise returns, and relates the elements one
    by one. *)
Lemma rand_map_ok (body : A → Rand B) (P : A → B → Prop) xs rnd :
  (∀ x r, x ∈ xs → ∃ y r', body x r = Ok (y, r') ∧ P x y) →
  ∃ ys rnd', rand_map body xs rnd = Ok (ys, rnd') ∧ Forall2 P xs ys.
Proof.
  revert rnd. induction xs as [|x xs IH]; intros rnd Hbody.
  - exists [], rnd. split; [done | constructor].
  - destruct (Hbody x rnd) as (y & rnd1 & Hy & HP); [left|].
    destruct (IH rnd1) as (ys & rnd2 & Hys & HPs).
    { intros x' r Hx'. apply Hbody. by right. }
    exists (y :: ys), rnd2. rewrite rand_map_cons, Hy, Hys.
    split; [done | by constructor].
Qed.

Lemma rand_map_inv (body : A → Rand B) xs rnd ys rnd' :
  rand_map body xs rnd = Ok (ys, rnd') →
  Forall2 (λ x y, ∃ r r', body x r = Ok (y, r')) xs ys.
Proof.
  revert rnd ys. induction xs as [|x xs IH]; intros rnd ys.
  - intros [= <- <-]. constructor.
  - rewrite rand_map_cons.
    destruct (body x rnd) as [[y rnd1]|e] eqn:Hy; [|done].
    destruct (rand_map body xs rnd1) as [[ys' rnd2]|e] eqn:Hys; [|done].
    intros [= <- <-]. constructor; [eauto | by eapply IH].
Qed.

End Oracle.

(** ** Seeding the trains *)

Lemma line_options_elem conns ln :
  ln ∈ Train.line_options conns ↔
  ∃ connection, connection ∈ conns ∧ connection.1.2 = ln.
Proof.
  unfold Train.line_options.
  assert (∀ options : list string,
    ln ∈ foldl (λ options connection,
                  if bool_decide (connection.1.2 ∈ options) then options
                  else options ++ [connection.1.2]) options conns
    ↔ ln ∈ options ∨ ∃ connection : Connection,
                        connection ∈ conns ∧ connection.1.2 = ln) as Hgen.
  { induction conns as [|c conns IH]; intros options; simpl.
    - split; [by left|]. intros [|(c & Hc & _)]; [done|].
      by apply elem_of_nil in Hc.
    - rewrite IH. case_bool_decide as Hc.
      + split.
        * intros [|(c' & Hc' & <-)]; [by left|]. right. exists c'.
          split; [by right|done].
        * intros [|(c' & Hc' & <-)]; [by left|].
          apply elem_of_cons in Hc' as [->|Hc']; [by left|].
          right. by exists c'.
      + rewrite elem_of_app, list_elem_of_singleton. split.
        * intros [[Hin | ->]|(c' & Hc' & <-)]; [by left| |].
          -- right. exists c. split; [left|done].
          -- right. exists c'. split; [by right|done].
        * intros [|(c' & Hc' & <-)]; [by left; left|].
          apply elem_of_cons in Hc' as [->|Hc']; [by left; right|].
          right. by exists c'. }
  rewrite Hgen. split; [|by right]. intros [Hnil|]; [|done].
  by apply elem_of_nil in Hnil.
Qed.

Lemma line_options_nonempty conns : conns ≠ [] → Train.line_options conns ≠ [].
Proof.
  intros Hconns Hnil. destruct conns as [|c conns]; [done|].
  assert (c.1.2 ∈ Train.line_options (c :: conns)) as Hin.
  { apply line_options_elem. exists c. split; [left|done]. }
  rewrite Hnil in Hin. by apply elem_of_nil in Hin.
Qed.

Lemma assign_line_on_line station_catalog entry rnd entry' rnd' :
  Train.assign_line station_catalog entry rnd = Ok (entry', rnd') →
  on_line station_catalog entry'.2.
Proof.
  unfold Train.assign_line.
  destruct (station_catalog !! station entry.2) as [st|] eqn:Hst; [|done].
  unfold rand_bind.
  destruct (choice _ rnd) as [[ln rnd1]|e] eqn:Hchoice; [|done].
  intros [= <- <-]. apply choice_inv in Hchoice as [Hln _].
  apply line_options_elem in Hln as (c & Hc & Hline).
  exists st, c. done.
Qed.

(** Seeding leaves every train on a line of its station. *)
Lemma build_catalog_on_line station_catalog train_count rnd trains rnd' :
  Train.build_catalog station_catalog train_count rnd = Ok (trains, rnd') →
  ∀ entry, entry ∈ trains → on_line station_catalog entry.2.
Proof.
  unfold Train.build_catalog, rand_bind.
  destruct (rand_map (Train.place station_catalog) _ rnd)
    as [[placed rnd1]|e]; [|done].
  intros Hrun%rand_map_inv entry Hentry.
  apply list_elem_of_lookup in Hentry as [i Hi].
  destruct (Forall2_lookup_r _ _ _ _ _ Hrun Hi)
    as (placed_entry & _ & r & r' & Hassign).
  by eapply assign_line_on_line.
Qed.

Lemma assign_line_isolated station_catalog entry st rnd :
  station_catalog !! station entry.2 = Some st → connections st = [] →
  Train.assign_line station_catalog entry rnd = Raise IndexError.
Proof.
  intros Hst Hnil. unfold Train.assign_line. rewrite Hst, Hnil. reflexivity.
Qed.

(** C9, as amended. Seeding has no guard of its own: it is on a catalog
    that is not empty and in which every station has at least one
    connection that, for every train count and every oracle, no line is
    ever selected from an empty set, and the trains asked for are
    returned. *)
Theorem build_catalog_connected station_catalog train_count rnd :
  station_catalog ≠ ∅ →
  (∀ key st, station_catalog !! key = Some st → connections st ≠ []) →
  ∃ trains rnd',
    Train.build_catalog station_catalog train_count rnd = Ok (trains, rnd') ∧
    length trains = train_count.
Proof.
  intros Hstations Hconnected.
  assert ((map_to_list station_catalog).*1 ≠ []) as Hkeys.
  { intros Hnil. apply fmap_nil_inv in Hnil.
    by apply map_to_list_empty_iff in Hnil. }
  destruct (rand_map_ok (Train.place station_catalog)
              (λ _ entry, is_Some (station_catalog !! station entry.2))
              (seq 0 train_count) rnd) as (placed & rnd1 & Hplaced & Hall).
  { intros n r _. unfold Train.place, rand_bind.
    destruct (choice_ok _ r Hkeys) as (key & Hkey & ->).
    destruct (choice_ok ["N"; "S"] (advance r)) as (co & _ & ->); [done|].
    eexists _, _. split; [reflexivity|]. simpl.
    apply list_elem_of_fmap in Hkey as ([key' st] & -> & Hin).
    apply elem_of_map_to_list in Hin. by exists st. }
  destruct (rand_map_ok (Train.assign_line station_catalog)
              (λ _ _, True) placed rnd1) as (trains & rnd2 & Htrains & Hlen).
  { intros entry r Hentry. apply list_elem_of_lookup in Hentry as [i Hi].
    destruct (Forall2_lookup_r _ _ _ _ _ Hall Hi) as (n & _ & st & Hst).
    unfold Train.assign_line, rand_bind. rewrite Hst.
    destruct (choice_ok (Train.line_options (connections st)) r)
      as (ln & _ & ->).
    { apply line_options_nonempty. by eapply Hconnected. }
    eauto. }
  exists trains, rnd2. split.
  - unfold Train.build_catalog, rand_bind. by rewrite Hplaced.
  - apply Forall2_length in Hall, Hlen. rewrite length_seq in Hall. lia.
Qed.

Lemma line_catalog_connected key st :
  line_catalog !! key = Some st → connections st ≠ [].
Proof.
  intros Hst Hnil.
  assert (key ∈ dom line_catalog) as Hkey by by eapply elem_of_dom_2.
  apply (map_connections_dom _ _ _ _ line_loaded) in Hkey.
  simpl in Hkey. rewrite !elem_of_cons in Hkey.
  destruct Hkey as [->|[->|[->|Hkey]]]; [..|by apply elem_of_nil in Hkey];
    vm_compute in Hst; injection Hst as <-; discriminate.
Qed.

Lemma build_catalog_connected_witness :
  line_catalog ≠ ∅ ∧
  (∀ key st, line_catalog !! key = Some st → connections st ≠ []) ∧
  ∃ trains rnd',
    Train.build_catalog line_catalog 2 second_choice = Ok (trains, rnd') ∧
    length trains = 2.
Proof.
  assert (line_catalog ≠ ∅) as Hstations.
  { intros Hempty. assert (line_catalog !! "A" = None) as Hnone
      by (rewrite Hempty; apply lookup_empty).
    vm_compute in Hnone. discriminate. }
  split_and!; [done | exact line_catalog_connected |].
  exact (build_catalog_connected line_catalog 2 second_choice Hstations
           line_catalog_connected).
Defined.

(** C9, as stated, fails: a station without connections is not guarded
    against, and seeding a train there selects a line from the empty list,
    which raises. *)
Lemma build_catalog_isolated_station :
  let station_catalog := loaded [("A", 0%Q)] [] in
  (connections <$> station_catalog !! "A") = Some [] ∧
  Train.build_catalog station_catalog 1 second_choice = Raise IndexError.
Proof. split; vm_compute; reflexivity. Qed.

(** ** Moving a train *)

Lemma connections_data_elem conns ln co :
  bool_decide ((ln, co) ∈ Train.connections_data conns)
  = existsb (matches ln co) conns.
Proof.
  induction conns as [|c conns IH]; [done|]. simpl. rewrite <- IH.
  unfold matches. destruct c as [[target ln'] co']. simpl.
  repeat case_bool_decide; simplify_eq/=; try done;
    rewrite ?elem_of_cons in *; naive_solver.
Qed.

Lemma reverse_plain self conns :
  plain_names self conns → plain_names (Train.reverse self) conns.
Proof.
  intros (Hco & Hn & Hs & Hconns). unfold Train.reverse.
  case_bool_decide; (split_and!; [simpl; auto|done|done|exact Hconns]).
Qed.

Lemma reverse_station self : station (Train.reverse self) = station self.
Proof. unfold Train.reverse. by case_bool_decide. Qed.

Lemma reverse_line self : line (Train.reverse self) = line self.
Proof. unfold Train.reverse. by case_bool_decide. Qed.

Lemma scan_plain self conns :
  plain_names self conns →
  Train.scan self conns =
  match find (matches (line self) (course self)) conns with
  | Some connection =>
      (true, mkTrain (train_name self) connection.1.1 (line self)
                     (course self))
  | None => (false, self)
  end.
Proof.
  intros (Hco & Hn & Hs & Hconns).
  induction conns as [|c conns IH]; [done|]. simpl.
  assert (Train.tuple_mem (line self) c && Train.tuple_mem (course self) c
          = matches (line self) (course self) c) as ->.
  { destruct (Hconns c) as (Hc1 & Hc2 & Hc3 & Hc4); [left|].
    unfold Train.tuple_mem, matches. destruct c as [[target ln'] co'].
    cbn [fst snd] in *.
    rewrite (bool_decide_eq_false_2 (line self = target)) by congruence.
    rewrite (bool_decide_eq_false_2 (line self = co'))
      by (destruct Hc4; congruence).
    rewrite (bool_decide_eq_false_2 (course self = target))
      by (destruct Hco; congruence).
    rewrite !orb_false_l, orb_false_r.
    destruct (decide (ln' = line self)) as [Hln|Hln].
    - rewrite (bool_decide_eq_true_2 (line self = ln')) by done.
      rewrite (bool_decide_eq_true_2 (ln' = line self)) by done.
      rewrite (bool_decide_eq_false_2 (course self = ln'))
        by (destruct Hco; congruence).
      rewrite !andb_true_l, orb_false_l. apply bool_decide_ext. naive_solver.
    - rewrite (bool_decide_eq_false_2 (line self = ln')) by congruence.
      by rewrite (bool_decide_eq_false_2 (ln' = line self)) by congruence. }
  destruct (matches (line self) (course self) c); [done|].
  apply IH. intros c' Hc'. apply Hconns. by right.
Qed.

(** Where names are plain, the code moves a train as the specification
    words it. *)
Lemma move_plain self station_catalog st :
  station_catalog !! station self = Some st →
  plain_names self (connections st) →
  Train.move self station_catalog = move_by_line self station_catalog.
Proof.
  intros Hst Hplain. unfold Train.move, move_by_line.
  rewrite Hst, connections_data_elem.
  destruct (existsb _ (connections st)).
  - rewrite scan_plain by done. by destruct (find _ _).
  - rewrite scan_plain by by apply reverse_plain. by destruct (find _ _).
Qed.

(** The specification's step fails, and leaves the train where it is,
    when the station has no track of its line. *)
Lemma move_by_line_no_track self station_catalog :
  no_track station_catalog self →
  ∃ self', move_by_line self station_catalog = Ok (false, self') ∧
           station self' = station self.
Proof.
  intros (st & Hst & Hnone). unfold move_by_line. rewrite Hst.
  assert (∀ co, co = course self ∨ co = course (Train.reverse self) →
            find (matches (line self) co) (connections st) = None) as Hfind.
  { intros co Hco. destruct (find _ _) as [c|] eqn:Hc; [|done].
    apply find_some in Hc as [Hin Hc]. apply list_elem_of_In in Hin.
    unfold matches in Hc. apply andb_prop in Hc as [Hln Hdir].
    apply bool_decide_eq_true_1 in Hln, Hdir.
    destruct (Hnone c Hin Hln) as [H1 H2]. naive_solver. }
  destruct (existsb _ _) eqn:Hex.
  - apply existsb_exists in Hex as (c & Hin & Hc).
    apply list_elem_of_In in Hin. unfold matches in Hc.
    apply andb_prop in Hc as [Hln Hdir].
    apply bool_decide_eq_true_1 in Hln, Hdir.
    destruct (Hnone c Hin Hln) as [H1 _]. done.
  - rewrite reverse_line, Hfind by by right.
    eexists. split; [done | apply reverse_station].
Qed.

(** Where names are plain, a move on a loaded network keeps the train on
    a line of its station: the connection taken has its counterpart, of the
    same line, at the station it leads to. *)
Lemma move_plain_on_line stations_list connections_list station_catalog
    self st flag self' :
  Station.map_connections stations_list connections_list
    = Ok station_catalog →
  station_catalog !! station self = Some st →
  plain_names self (connections st) →
  on_line station_catalog self →
  Train.move self station_catalog = Ok (flag, self') →
  on_line station_catalog self'.
Proof.
  intros Hload Hst Hplain Hon. rewrite (move_plain _ _ st) by done.
  unfold move_by_line. rewrite Hst.
  set (self0 := if existsb _ _ then self else Train.reverse self).
  assert (line self0 = line self ∧ station self0 = station self)
    as [Hline Hstation].
  { subst self0. destruct (existsb _ _); [done|].
    by rewrite reverse_line, reverse_station. }
  destruct (find _ (connections st)) as [c|] eqn:Hfind.
  - intros [= <- <-]. apply find_some in Hfind as [Hin Hc].
    apply list_elem_of_In in Hin. unfold matches in Hc.
    apply andb_prop in Hc as [Hln _]. apply bool_decide_eq_true_1 in Hln.
    destruct (map_connections_entries _ _ _ _ _ _ Hload Hst Hin)
      as (el & Hel & Hcase).
    destruct (map_connections_rows _ _ _ _ Hload Hel)
      as [(sa & Hsa & Hfwd) (sb & Hsb & Hinv)].
    destruct el as [[[a b] ln] dir].
    unfold Station.row_from, Station.row_to in *. cbn [fst snd] in *.
    destruct Hcase as [[_ ->]|[_ ->]].
    + exists sb, (Station.inverse (a, b, ln, dir)).
      split_and!; [done|done|]. rewrite <- Hln. simpl.
      by case_bool_decide.
    + exists sa, (Station.forward (a, b, ln, dir)).
      split_and!; [|done|].
      * simpl. by case_bool_decide.
      * rewrite <- Hln. simpl. by case_bool_decide.
  - intros [= <- <-]. destruct Hon as (st0 & c & Hst0 & Hc & Hlc).
    exists st0, c. by rewrite Hstation, Hline.
Qed.

(** C2. On the network where line [B] bears the name of station B, a
    northbound train of line [B] at A has a matching connection and keeps
    its course; the first connection of A on line [B] northbound leads to
    C, which is where the specification sends the train; the code sends it
    to station B, along the connection of line [L1] listed before, because
    its final loop tests whether the line occurs anywhere in the
    connection tuple. *)
Theorem move_takes_namesake_connection :
  let train := mkTrain 1 "A" "B" "N" in
  (connections <$> namesake_catalog !! "A")
    = Some [("B", "L1", "N"); ("C", "B", "N")] ∧
  move_by_line train namesake_catalog = Ok (true, mkTrain 1 "C" "B" "N") ∧
  Train.move train namesake_catalog = Ok (true, mkTrain 1 "B" "B" "N").
Proof. split_and!; vm_compute; reflexivity. Qed.

(** C6. A northbound train of line [B] at station A, where the only
    connection is a southbound one of line [L1] to station B: no connection
    matches the line of the train in either course, and still the code
    reverses the train, moves it to B and returns [True]. *)
Theorem move_without_track :
  let station_catalog :=
    loaded [("A", 0%Q); ("B", 0%Q)] [("A", "B", "L1", "S")] in
  let train := mkTrain 1 "A" "B" "N" in
  no_track station_catalog train ∧
  move_by_line train station_catalog = Ok (false, mkTrain 1 "A" "B" "S") ∧
  Train.move train station_catalog = Ok (true, mkTrain 1 "B" "B" "S").
Proof.
  split_and!; [|vm_compute; reflexivity..].
  exists (mkStation "A" 0%Q [("B", "L1", "S")]).
  split; [vm_compute; reflexivity|].
  intros c Hc%list_elem_of_singleton Hline. subst c. discriminate.
Qed.

(** C5. On the network where line [B] bears the name of station B, a
    train seeded at A on line [B] is on a line of its station; one turn
    later the code has moved it to station B, where no connection of line
    [B] exists. *)
Theorem move_leaves_line :
  let seeded := mkTrain 1 "A" "B" "N" in
  let moved := mkTrain 1 "B" "B" "N" in
  Train.build_catalog namesake_catalog 1 second_choice
    = Ok ([("1", seeded)], mkRandom 3 (uniform second_choice)
                                    (integer second_choice)) ∧
  on_line namesake_catalog seeded ∧
  Train.move seeded namesake_catalog = Ok (true, moved) ∧
  Train.simulate_turn namesake_catalog [("1", seeded)] second_choice
    = Ok ([("1", moved)], mkRandom 1 (uniform second_choice)
                                   (integer second_choice)) ∧
  ¬ on_line namesake_catalog moved.
Proof.
  split_and!; [vm_compute; reflexivity| |vm_compute; reflexivity..|].
  - exists (mkStation "A" 0%Q [("B", "L1", "N"); ("C", "B", "N")]),
      ("C", "B", "N").
    split_and!; [vm_compute; reflexivity|set_solver|done].
  - intros (st & c & Hst & Hc & Hline). vm_compute in Hst.
    injection Hst as <-. simpl in Hc.
    apply list_elem_of_singleton in Hc as ->. discriminate.
Qed.

(** ** One turn of the simulation *)

Lemma Qgt_bool_lt x y : Qgt_bool x y = true ↔ (y < x)%Q.
Proof.
  unfold Qgt_bool. rewrite negb_true_iff, <- not_true_iff_false, Qle_bool_iff.
  split; [apply Qnot_le_lt | apply Qlt_not_le].
Qed.

(** The body of the loop, for a train that stands at a station of the
    catalog: one draw, and the train is left as it is or moved. *)
Lemma turn_spec station_catalog train rnd st :
  station_catalog !! station train = Some st →
  ∃ train',
    Train.turn station_catalog train rnd = Ok (train', advance rnd) ∧
    ((uniform rnd (position rnd) < delay_constant st)%Q → train' = train) ∧
    (¬ (uniform rnd (position rnd) < delay_constant st)%Q →
     ∃ flag, Train.move train station_catalog = Ok (flag, train')).
Proof.
  intros Hst. unfold Train.turn. rewrite Hst. unfold rand_bind, random.
  destruct (Qgt_bool (delay_constant st) (uniform rnd (position rnd)))
    eqn:Hroll.
  - exists train. split; [done|]. apply Qgt_bool_lt in Hroll. split; [done|].
    intros Hnot. by destruct Hnot.
  - assert (¬ (uniform rnd (position rnd) < delay_constant st)%Q) as Hnot.
    { intros Hlt%Qgt_bool_lt. congruence. }
    unfold Train.move. rewrite Hst. cbv zeta.
    destruct (Train.scan _ (connections st)) as [flag train'] eqn:Hscan.
    exists train'. split; [done|]. split; [done|]. intros _. by exists flag.
Qed.

Lemma simulate_turn_entries station_catalog train_catalog rnd :
  (∀ entry, entry ∈ train_catalog →
     is_Some (station_catalog !! station entry.2)) →
  ∃ train_catalog',
    Train.simulate_turn station_catalog train_catalog rnd
      = Ok (train_catalog',
            mkRandom (position rnd + length train_catalog)
                     (uniform rnd) (integer rnd)) ∧
    length train_catalog' = length train_catalog ∧
    ∀ i key train, train_catalog !! i = Some (key, train) →
      ∃ st train',
        station_catalog !! station train = Some st ∧
        train_catalog' !! i = Some (key, train') ∧
        ((uniform rnd (position rnd + i) < delay_constant st)%Q →
         train' = train) ∧
        (¬ (uniform rnd (position rnd + i) < delay_constant st)%Q →
         ∃ flag, Train.move train station_catalog = Ok (flag, train')).
Proof.
  revert rnd. induction train_catalog as [|[key train] rest IH];
    intros rnd Hstations.
  - exists []. split_and!; [|done|by intros [|]].
    destruct rnd as [pos u g]. simpl. by rewrite Nat.add_0_r.
  - destruct (Hstations (key, train)) as [st Hst]; [left|].
    destruct (turn_spec station_catalog train rnd st Hst)
      as (train' & Hturn & Hdelayed & Hmoved).
    destruct (IH (advance rnd)) as (rest' & Hrest & Hlen & Hentries).
    { intros entry Hentry. apply Hstations. by right. }
    exists ((key, train') :: rest'). split_and!.
    + unfold Train.simulate_turn in *. rewrite rand_map_cons.
      unfold rand_bind at 1. cbn [snd fst]. rewrite Hturn.
      unfold rand_ret at 1. rewrite Hrest. simpl. do 3 f_equal. lia.
    + simpl. by rewrite Hlen.
    + intros [|i] key0 train0 Hi.
      * injection Hi as <- <-. exists st, train'. rewrite Nat.add_0_r. done.
      * simpl in Hi. destruct (Hentries i key0 train0 Hi)
          as (st0 & train0' & Hst0 & Hi' & Hd & Hm).
        exists st0, train0'. simpl in Hd, Hm.
        replace (position rnd + S i) with (S (position rnd + i)) by lia.
        done.
Qed.

(** C3. Delay semantics of the turn step, with the random source as an
    oracle: when every train stands at a station of the catalog,
    [simulate_turn] returns, having drawn one sample per train, in the
    order of the train catalog; a train is left as it was, without a call
    of [move], exactly when its sample is strictly less than the delay
    probability of its station, and is otherwise replaced by what [move]
    makes of it; in particular, when every delay probability is 0 and the
    samples lie in [[0,1)], [move] is invoked on every train. *)
Theorem simulate_turn_delay station_catalog train_catalog rnd :
  (∀ entry, entry ∈ train_catalog →
     is_Some (station_catalog !! station entry.2)) →
  ∃ train_catalog',
    Train.simulate_turn station_catalog train_catalog rnd
      = Ok (train_catalog',
            mkRandom (position rnd + length train_catalog)
                     (uniform rnd) (integer rnd)) ∧
    length train_catalog' = length train_catalog ∧
    (∀ i key train, train_catalog !! i = Some (key, train) →
       ∃ st train',
         station_catalog !! station train = Some st ∧
         train_catalog' !! i = Some (key, train') ∧
         ((uniform rnd (position rnd + i) < delay_constant st)%Q →
          train' = train) ∧
         (¬ (uniform rnd (position rnd + i) < delay_constant st)%Q →
          ∃ flag, Train.move train station_catalog = Ok (flag, train'))) ∧
    ((∀ key st, station_catalog !! key = Some st →
        (delay_constant st == 0)%Q) →
     (∀ n, (0 <= uniform rnd n)%Q ∧ (uniform rnd n < 1)%Q) →
     ∀ i key train, train_catalog !! i = Some (key, train) →
       ∃ flag train',
         Train.move train station_catalog = Ok (flag, train') ∧
         train_catalog' !! i = Some (key, train')).
Proof.
  intros Hstations.
  destruct (simulate_turn_entries station_catalog train_catalog rnd Hstations)
    as (train_catalog' & Hrun & Hlen & Hentries).
  exists train_catalog'. split_and!; [done..|].
  intros Hzero Hunit i key train Hi.
  destruct (Hentries i key train Hi) as (st & train' & Hst & Hi' & _ & Hm).
  destruct Hm as [flag Hmove].
  { rewrite (Hzero _ _ Hst). apply Qle_not_lt, Hunit. }
  by exists flag, train'.
Qed.

Lemma simulate_turn_delay_witness :
  let train_catalog := [("1", mkTrain 1 "A" "L1" "N")] in
  (∀ entry, entry ∈ train_catalog →
     is_Some (line_catalog !! station entry.2)) ∧
  ∃ train_catalog',
    Train.simulate_turn line_catalog train_catalog second_choice
      = Ok (train_catalog', mkRandom 1 (uniform second_choice)
                                     (integer second_choice)) ∧
    length train_catalog' = 1.
Proof.
  intros train_catalog.
  assert (∀ entry, entry ∈ train_catalog →
            is_Some (line_catalog !! station entry.2)) as Hstations.
  { intros entry Hentry%list_elem_of_singleton. subst entry.
    vm_compute. eauto. }
  split; [exact Hstations|].
  destruct (simulate_turn_delay line_catalog train_catalog second_choice
              Hstations) as (train_catalog' & Hrun & Hlen & _).
  exists train_catalog'. split; [exact Hrun | exact Hlen].
Defined.

(** The scenario of the line A - B - C: a northbound train of line [L1]
    at A is at B after one turn, at C after two, and after the third turn,
    having reversed at the end of the line, back at B heading south. *)
Lemma simulate_turn_scenario :
  let turn trains :=
    match Train.simulate_turn line_catalog trains second_choice with
    | Ok (trains', _) => trains'
    | Raise _ => []
    end in
  let trains0 := [("1", mkTrain 1 "A" "L1" "N")] in
  turn trains0 = [("1", mkTrain 1 "B" "L1" "N")] ∧
  turn (turn trains0) = [("1", mkTrain 1 "C" "L1" "N")] ∧
  turn (turn (turn trains0)) = [("1", mkTrain 1 "B" "L1" "S")] ∧
  Station.breadth_first_pathfind (Station.build_graph line_catalog) "A" "C"
    = Some (Ok ["A"; "B"; "C"]).
Proof. split_and!; vm_compute; reflexivity. Qed.


(** * Further properties *)

(** ** The catalog of stations *)

Lemma build_catalog_snoc station_list row :
  Station.build_catalog (station_list ++ [row])
  = <[row.1 := mkStation row.1 row.2 []]> (Station.build_catalog station_list).
Proof. unfold Station.build_catalog. by rewrite foldl_app. Qed.

(** X1. [Station.build_catalog] keeps one station per name: a name that no
    row bears is not a key, and for a name that rows bear the station of
    the last such row is kept, with its delay, the name as its name and no
    connections. *)
Theorem build_catalog_last_row station_list key :
  (key ∉ station_list.*1 →
   Station.build_catalog station_list !! key = None) ∧
  (∀ before delay after,
     station_list = before ++ (key, delay) :: after → key ∉ after.*1 →
     Station.build_catalog station_list !! key
     = Some (mkStation key delay [])).
Proof.
  split.
  - intros Hkey. apply not_elem_of_dom. by rewrite build_catalog_dom.
  - intros before delay after -> Hlast.
    induction after as [|row after IH] using rev_ind.
    + rewrite build_catalog_snoc. apply lookup_insert_eq.
    + rewrite fmap_app, elem_of_app in Hlast.
      replace (before ++ (key, delay) :: after ++ [row])
        with ((before ++ (key, delay) :: after) ++ [row])
        by by rewrite <- app_assoc.
      rewrite build_catalog_snoc, lookup_insert_ne.
      * apply IH. tauto.
      * intros Heq. apply Hlast. right. simpl. rewrite Heq. left.
Qed.

Lemma build_catalog_last_row_witness :
  let station_list := [("A", 0%Q); ("B", 0%Q); ("A", (1 # 2)%Q)] in
  ("C" ∉ station_list.*1) ∧
  station_list = [("A", 0%Q); ("B", 0%Q)] ++ ("A", (1 # 2)%Q) :: [] ∧
  ("A" ∉ (@nil (string * Q)).*1) ∧
  Station.build_catalog station_list !! "C" = None ∧
  Station.build_catalog station_list !! "A"
  = Some (mkStation "A" (1 # 2)%Q []).
Proof.
  intros station_list.
  assert ("C" ∉ station_list.*1) as Hmiss.
  { intros Hin. simpl in Hin.
    repeat (apply elem_of_cons in Hin as [Hin|Hin]; [discriminate|]).
    by apply elem_of_nil in Hin. }
  assert ("A" ∉ (@nil (string * Q)).*1) as Hlast by apply not_elem_of_nil.
  split_and!; [exact Hmiss | reflexivity | exact Hlast | |].
  - exact (proj1 (build_catalog_last_row station_list "C") Hmiss).
  - exact (proj2 (build_catalog_last_row station_list "A")
             [("A", 0%Q); ("B", 0%Q)] (1 # 2)%Q [] eq_refl Hlast).
Defined.

(** X2. [Station.map_connections] returns a catalog exactly when every row
    of the connections list names, as origin and as destination, a station
    of the stations list. *)
Theorem map_connections_accepts_iff stations_list connections_list :
  (∃ catalog,
     Station.map_connections stations_list connections_list = Ok catalog)
  ↔ ∀ element, element ∈ connections_list →
      Station.row_from element ∈ stations_list.*1 ∧
      Station.row_to element ∈ stations_list.*1.
Proof.
  split; [|apply map_connections_accepts].
  intros [catalog Hload] element Hel.
  destruct (map_connections_rows_known _ _ _ _ Hload Hel) as [Hfrom Hto].
  by rewrite <- !(map_connections_dom _ _ _ _ Hload).
Qed.

Section Exact.

Variables (key_of : ConnectionRow → string)
          (entry_of : ConnectionRow → Connection).

Lemma for_each_append_exact rows (catalog catalog' : gmap string Station) key :
  for_each (λ catalog element,
              Station.append_connection catalog (key_of element)
                (entry_of element)) rows catalog = Ok catalog' →
  catalog' !! key
  = (λ st, mkStation (name st) (delay_constant st)
             (connections st ++ entries_of key_of entry_of key rows))
    <$> catalog !! key.
Proof.
  revert catalog. induction rows as [|element rows IH]; intros catalog Hrun.
  - injection Hrun as <-. destruct (catalog !! key) as [[n d c]|]; [|done].
    simpl. unfold entries_of. simpl. by rewrite app_nil_r.
  - cbn in Hrun.
    destruct (catalog !! key_of element) as [st0|] eqn:Hst0.
    2:{ by rewrite append_connection_raise in Hrun. }
    assert (Station.append_connection catalog (key_of element)
              (entry_of element)
            = Ok (<[key_of element := mkStation (name st0) (delay_constant st0)
                      (connections st0 ++ [entry_of element])]> catalog))
      as Happend.
    { unfold Station.append_connection. by rewrite Hst0. }
    rewrite Happend in Hrun. cbn in Hrun. rewrite (IH _ Hrun).
    unfold entries_of. destruct (decide (key_of element = key)) as [<-|Hne].
    + rewrite lookup_insert_eq, Hst0, filter_cons_True by done. simpl.
      by rewrite <- app_assoc.
    + rewrite lookup_insert_ne, filter_cons_False by done. done.
Qed.

End Exact.

(** X3. The connection lists of a loaded catalog, exactly: the station
    kept for a name has the name and the delay that [build_catalog] gave
    it, and its connections are the forward entries of the rows that leave
    it, in row order, followed by the inverse entries of the rows that
    reach it, in row order. *)
Theorem map_connections_lookup stations_list connections_list catalog key :
  Station.map_connections stations_list connections_list = Ok catalog →
  catalog !! key
  = (λ st, mkStation (name st) (delay_constant st)
             (entries_of Station.row_from Station.forward key connections_list
              ++ entries_of Station.row_to Station.inverse key
                   connections_list))
    <$> Station.build_catalog stations_list !! key.
Proof.
  intros Hload. unfold Station.map_connections in Hload. cbn in Hload.
  destruct (for_each _ connections_list
              (Station.build_catalog stations_list)) as [c1|e] eqn:Hc1;
    [|done].
  cbn in Hload.
  rewrite (for_each_append_exact _ _ _ _ _ key Hload).
  rewrite (for_each_append_exact _ _ _ _ _ key Hc1).
  destruct (Station.build_catalog stations_list !! key) as [st|] eqn:Hst;
    [|done].
  simpl. by rewrite (build_catalog_fresh _ _ _ Hst).
Qed.

Lemma map_connections_lookup_witness :
  Station.map_connections line_stations line_connections = Ok line_catalog ∧
  line_catalog !! "B"
  = Some (mkStation "B" 0%Q [("C", "L1", "N"); ("A", "L1", "S")]).
Proof.
  split; [exact line_loaded|].
  rewrite (map_connections_lookup line_stations line_connections
             line_catalog "B" line_loaded).
  vm_compute. reflexivity.
Defined.

(** ** The graph of a loaded network and the search on it *)

Lemma build_graph_edge station_catalog u v :
  edge (Station.build_graph station_catalog) u v ↔
  ∃ st entry, station_catalog !! u = Some st ∧ entry ∈ connections st
              ∧ entry.1.1 = v.
Proof.
  unfold edge, Station.build_graph. rewrite lookup_fmap. split.
  - intros (ns & Hu & Hv).
    destruct (station_catalog !! u) as [st|]; [|done]. injection Hu as <-.
    apply list_elem_of_fmap in Hv as (entry & -> & Hin). by exists st, entry.
  - intros (st & entry & -> & Hin & <-). eexists. split; [done|].
    apply list_elem_of_fmap. by exists entry.
Qed.

Lemma build_graph_key station_catalog key :
  is_Some (Station.build_graph station_catalog !! key)
  ↔ key ∈ dom station_catalog.
Proof.
  unfold Station.build_graph. by rewrite lookup_fmap, fmap_is_Some, elem_of_dom.
Qed.

Lemma bfs_unknown_start graph start goal :
  graph !! start = None →
  Station.breadth_first_pathfind graph start goal = Some (Raise KeyError).
Proof.
  intros Hstart. unfold Station.breadth_first_pathfind, Station.bfs_fuel.
  simpl. by rewrite Hstart.
Qed.

Lemma loaded_search_list stations_list connections_list catalog
    start goal :
  Station.map_connections stations_list connections_list = Ok catalog →
  start ∈ stations_list.*1 →
  ∃ r, Station.breadth_first_pathfind (Station.build_graph catalog) start goal
         = Some (Ok r) ∧
       (goal ∉ stations_list.*1 → r = []).
Proof.
  intros Hload Hstart.
  pose proof (build_graph_closed _ _ _ Hload) as Hclosed.
  assert (is_Some (Station.build_graph catalog !! start)) as Hkey.
  { apply build_graph_key. by rewrite (map_connections_dom _ _ _ _ Hload). }
  destruct (breadth_first_pathfind_answer _ start goal Hclosed Hkey)
    as (r & Hrun & Hans).
  exists r. split; [done|]. intros Hgoal.
  destruct (decide (r = [])) as [|Hr]; [done|].
  destruct (search_answer_path _ _ _ _ Hans Hr) as (Hpath & Hlen & _).
  destruct (path_between_hop _ _ _ _ Hpath Hlen) as (w & u & _ & _ & He).
  apply Hclosed, build_graph_key in He.
  by rewrite (map_connections_dom _ _ _ _ Hload) in He.
Qed.

(** X4. Load, then search: on the graph of a loaded catalog and from a
    station of the stations list, the search returns a list and raises
    nothing; the list is empty when the goal is not a station of the
    stations list. *)
Theorem loaded_search_returns stations_list connections_list catalog
    start goal :
  Station.map_connections stations_list connections_list = Ok catalog →
  start ∈ stations_list.*1 →
  ∃ r, Station.breadth_first_pathfind (Station.build_graph catalog) start goal
         = Some (Ok r) ∧
       (goal ∉ stations_list.*1 → r = []).
Proof.
  intros Hload Hstart. by apply loaded_search_list with connections_list.
Qed.

Lemma loaded_search_returns_witness :
  Station.map_connections line_stations line_connections = Ok line_catalog ∧
  "A" ∈ line_stations.*1 ∧
  ∃ r, Station.breadth_first_pathfind (Station.build_graph line_catalog)
         "A" "Z" = Some (Ok r) ∧
       ("Z" ∉ line_stations.*1 → r = []).
Proof.
  assert ("A" ∈ line_stations.*1) as Hstart by left.
  split_and!; [exact line_loaded | exact Hstart |].
  exact (loaded_search_returns line_stations line_connections line_catalog
           "A" "Z" line_loaded Hstart).
Defined.

(** The tracks of a loaded network run both ways. *)
Lemma loaded_edge_symmetric stations_list connections_list catalog u v :
  Station.map_connections stations_list connections_list = Ok catalog →
  edge (Station.build_graph catalog) u v →
  edge (Station.build_graph catalog) v u.
Proof.
  intros Hload (st & entry & Hst & Hin & <-)%build_graph_edge.
  destruct (map_connections_entries _ _ _ _ _ _ Hload Hst Hin)
    as (el & Hel & Hcase).
  destruct (map_connections_rows _ _ _ _ Hload Hel)
    as [(sa & Hsa & Hfwd) (sb & Hsb & Hinv)].
  destruct el as [[[a b] ln] dir].
  unfold Station.row_from, Station.row_to in *. cbn [fst snd] in *.
  apply build_graph_edge. destruct Hcase as [[-> ->]|[-> ->]].
  - exists sb, (Station.inverse (a, b, ln, dir)).
    split_and!; [done|done|]. simpl. by case_bool_decide.
  - exists sa, (Station.forward (a, b, ln, dir)).
    split_and!; [|done|done]. simpl. by case_bool_decide.
Qed.

Lemma joined_cons graph x y q :
  edge graph x y → head q = Some y → joined graph q → joined graph (x :: q).
Proof.
  intros He Hh Hj [|i] u v Hu Hv.
  - simpl in Hu. injection Hu as <-. simpl in Hv.
    destruct q as [|z q]; [done|]. simpl in *. by simplify_eq.
  - by apply (Hj i).
Qed.

Lemma route_reverse graph start p v :
  (∀ a b, edge graph a b → edge graph b a) →
  route graph start p v → path_between graph v start (reverse p).
Proof.
  intros Hsym. induction 1 as [|p u v Hp (Hh & Hl & Hj) He].
  - apply route_path_between. constructor.
  - rewrite reverse_snoc. split_and!.
    + done.
    + destruct (reverse p) as [|z q] eqn:Hq; [done|]. exact Hl.
    + apply (joined_cons _ _ u); auto.
Qed.

Lemma loaded_reverse_path stations_list connections_list catalog a b p :
  Station.map_connections stations_list connections_list = Ok catalog →
  path_between (Station.build_graph catalog) a b p →
  path_between (Station.build_graph catalog) b a (reverse p).
Proof.
  intros Hload Hp%path_between_route. eapply route_reverse; [|done].
  intros u v. by apply loaded_edge_symmetric with stations_list
                         connections_list.
Qed.

(** X5. The graph of a loaded catalog is symmetric: every connection has
    its way back, so a path from one station to another, read backwards, is
    a path from the other to the one. *)
Theorem loaded_path_reverse stations_list connections_list catalog a b p :
  Station.map_connections stations_list connections_list = Ok catalog →
  path_between (Station.build_graph catalog) a b p →
  path_between (Station.build_graph catalog) b a (reverse p).
Proof. apply loaded_reverse_path. Qed.

Lemma line_path_A_C :
  path_between (Station.build_graph line_catalog) "A" "C" ["A"; "B"; "C"].
Proof.
  apply route_path_between.
  apply (route_step _ _ ["A"; "B"] "B").
  - apply (route_step _ _ ["A"] "A"); [constructor|].
    exists ["B"]. split; [vm_compute; reflexivity | left].
  - exists ["C"; "A"]. split; [vm_compute; reflexivity | left].
Qed.

Lemma loaded_path_reverse_witness :
  Station.map_connections line_stations line_connections = Ok line_catalog ∧
  path_between (Station.build_graph line_catalog) "A" "C" ["A"; "B"; "C"] ∧
  path_between (Station.build_graph line_catalog) "C" "A" ["C"; "B"; "A"].
Proof.
  split_and!; [exact line_loaded | exact line_path_A_C |].
  exact (loaded_path_reverse line_stations line_connections line_catalog
           "A" "C" ["A"; "B"; "C"] line_loaded line_path_A_C).
Defined.

(** X6. On the graph of a loaded catalog the search finds a way back as
    short as the way out: the lists returned from [a] to [b] and from [b]
    to [a] have the same length (both are empty, or both are shortest
    paths). *)
Theorem loaded_search_symmetric stations_list connections_list catalog
    a b r r' :
  Station.map_connections stations_list connections_list = Ok catalog →
  Station.breadth_first_pathfind (Station.build_graph catalog) a b
    = Some (Ok r) →
  Station.breadth_first_pathfind (Station.build_graph catalog) b a
    = Some (Ok r') →
  length r = length r'.
Proof.
  intros Hload Hab Hba.
  pose proof (build_graph_closed _ _ _ Hload) as Hclosed.
  set (graph := Station.build_graph catalog) in *.
  assert (∀ x y res, Station.breadth_first_pathfind graph x y = Some (Ok res) →
            search_answer graph x y res) as Hanswer.
  { intros x y res Hrun. destruct (graph !! x) as [ns|] eqn:Hx.
    - destruct (breadth_first_pathfind_answer graph x y Hclosed)
        as (res' & Hrun' & Hans); [by eexists|]. congruence.
    - rewrite bfs_unknown_start in Hrun by done. done. }
  assert (∀ x y res res',
            search_answer graph x y res → search_answer graph y x res' →
            length res ≤ length res') as Hle.
  { intros x y res res' Hres Hres'.
    destruct (decide (res' = [])) as [->|Hne'].
    - destruct (decide (res = [])) as [->|Hne]; [done|].
      destruct (search_answer_path _ _ _ _ Hres Hne) as (Hp & Hlen & _).
      apply (loaded_reverse_path _ _ _ _ _ _ Hload) in Hp.
      pose proof (search_answer_empty _ _ _ Hres' _ Hp) as Hshort.
      rewrite length_reverse in Hshort. lia.
    - destruct (search_answer_path _ _ _ _ Hres' Hne') as (Hp' & Hlen' & _).
      apply (loaded_reverse_path _ _ _ _ _ _ Hload) in Hp'.
      destruct (decide (res = [])) as [->|Hne].
      + pose proof (search_answer_empty _ _ _ Hres _ Hp') as Hshort.
        rewrite length_reverse in Hshort. lia.
      + destruct (search_answer_path _ _ _ _ Hres Hne) as (_ & _ & Hmin).
        specialize (Hmin _ Hp'). rewrite length_reverse in Hmin. lia. }
  apply Nat.le_antisymm; eapply Hle; eauto.
Qed.

Lemma loaded_search_symmetric_witness :
  Station.map_connections line_stations line_connections = Ok line_catalog ∧
  Station.breadth_first_pathfind (Station.build_graph line_catalog) "A" "C"
    = Some (Ok ["A"; "B"; "C"]) ∧
  Station.breadth_first_pathfind (Station.build_graph line_catalog) "C" "A"
    = Some (Ok ["C"; "B"; "A"]) ∧
  length ["A"; "B"; "C"] = length ["C"; "B"; "A"].
Proof.
  assert (Station.breadth_first_pathfind (Station.build_graph line_catalog)
            "A" "C" = Some (Ok ["A"; "B"; "C"])) as Hout
    by (vm_compute; reflexivity).
  assert (Station.breadth_first_pathfind (Station.build_graph line_catalog)
            "C" "A" = Some (Ok ["C"; "B"; "A"])) as Hback
    by (vm_compute; reflexivity).
  split_and!; [exact line_loaded | exact Hout | exact Hback |].
  exact (loaded_search_symmetric line_stations line_connections line_catalog
           "A" "C" _ _ line_loaded Hout Hback).
Defined.

(** ** The search on any dictionary *)

Lemma bfs_loop_no_index_error fuel graph goal explored queue :
  (∀ q, q ∈ queue → q ≠ []) →
  Station.bfs_loop fuel graph goal explored queue ≠ Some (Raise IndexError).
Proof.
  revert explored queue.
  induction fuel as [|fuel IH]; intros explored queue Hqueue; [done|].
  simpl. destruct queue as [|search_path queue]; [done|].
  assert (∀ q, q ∈ queue → q ≠ []) as Hrest
    by (intros q Hq; apply Hqueue; by right).
  destruct (last search_path) as [station|] eqn:Hlast.
  2:{ apply last_None in Hlast. destruct (Hqueue search_path); [left|done]. }
  case_bool_decide; [by apply IH|].
  destruct (graph !! station) as [neighbours|]; [|done].
  rewrite extend_spec. case_bool_decide; [done|]. apply IH.
  intros q [Hq|Hq]%elem_of_app; [by apply Hrest|].
  apply list_elem_of_fmap in Hq as (n & -> & _). by destruct search_path.
Qed.

(** X7. The [while] loop of the search ends on every dictionary, closed or
    not: [2 + ] the number of entries of all adjacency lists iterations are
    enough, more change nothing, and the only exception that can leave the
    search is the [KeyError] of a failed lookup. *)
Theorem breadth_first_pathfind_ends graph start goal fuel :
  Station.bfs_fuel graph ≤ fuel →
  ∃ res, Station.breadth_first_pathfind graph start goal = Some res ∧
         Station.bfs_loop fuel graph goal [] [[start]] = Some res ∧
         res ≠ Raise IndexError.
Proof.
  intros Hfuel.
  destruct (breadth_first_pathfind_terminates graph start goal)
    as [res Hres].
  exists res. split; [done|]. split.
  - by apply (bfs_loop_fuel_mono graph goal (Station.bfs_fuel graph)).
  - intros ->. revert Hres. apply bfs_loop_no_index_error.
    intros q Hq%list_elem_of_singleton. by subst q.
Qed.

Lemma breadth_first_pathfind_ends_witness :
  let graph : gmap string (list string) := {["A" := ["B"; "X"]]} in
  Station.bfs_fuel graph ≤ 10 ∧
  ∃ res, Station.breadth_first_pathfind graph "A" "C" = Some res ∧
         Station.bfs_loop 10 graph "C" [] [["A"]] = Some res ∧
         res ≠ Raise IndexError.
Proof.
  intros graph.
  assert (Station.bfs_fuel graph ≤ 10) as Hfuel by (vm_compute; lia).
  split; [exact Hfuel|].
  exact (breadth_first_pathfind_ends graph "A" "C" 10 Hfuel).
Defined.

Lemma bfs_loop_sound fuel graph start goal explored queue r :
  (∀ q, q ∈ queue → ∃ v, route graph start q v) →
  Station.bfs_loop fuel graph goal explored queue = Some (Ok r) →
  r = [] ∨ ∃ p u, r = p ++ [goal] ∧ route graph start p u ∧ edge graph u goal.
Proof.
  revert explored queue.
  induction fuel as [|fuel IH]; intros explored queue Hqueue; [done|].
  simpl. destruct queue as [|search_path queue].
  { intros [= <-]. by left. }
  assert (∀ q, q ∈ queue → ∃ v, route graph start q v) as Hrest
    by (intros q Hq; apply Hqueue; by right).
  destruct (Hqueue search_path) as [u Hu]; [left|].
  rewrite (route_last _ _ _ _ Hu).
  case_bool_decide; [by apply IH|].
  destruct (graph !! u) as [neighbours|] eqn:Hns; [|done].
  rewrite extend_spec. case_bool_decide as Hgoal.
  - intros [= <-]. right. exists search_path, u.
    split_and!; [done|done|by exists neighbours].
  - apply IH. intros q [Hq|Hq]%elem_of_app; [by apply Hrest|].
    apply list_elem_of_fmap in Hq as (n & -> & Hn). exists n.
    apply (route_step _ _ _ u); [done|]. by exists neighbours.
Qed.

(** X8. Whatever the dictionary, a list that the search returns is empty
    or is a path of the graph that leads from start to goal, of at least
    two stations. *)
Theorem breadth_first_pathfind_sound graph start goal r :
  Station.breadth_first_pathfind graph start goal = Some (Ok r) →
  r = [] ∨ (path_between graph start goal r ∧ 2 ≤ length r).
Proof.
  intros Hrun. apply (bfs_loop_sound _ _ start) in Hrun.
  - destruct Hrun as [|(p & u & -> & Hp & He)]; [by left|]. right. split.
    + apply route_path_between. by apply (route_step _ _ _ u).
    + apply route_length in Hp. rewrite length_app. simpl. lia.
  - intros q Hq%list_elem_of_singleton. subst q. eexists. constructor.
Qed.

Lemma breadth_first_pathfind_sound_witness :
  let graph : gmap string (list string) := {["A" := ["X"; "B"]]} in
  Station.breadth_first_pathfind graph "A" "B" = Some (Ok ["A"; "B"]) ∧
  (["A"; "B"] = [] ∨ (path_between graph "A" "B" ["A"; "B"]
                      ∧ 2 ≤ length ["A"; "B"])).
Proof.
  intros graph.
  assert (Station.breadth_first_pathfind graph "A" "B"
          = Some (Ok ["A"; "B"])) as Hrun by (vm_compute; reflexivity).
  split; [exact Hrun|].
  exact (breadth_first_pathfind_sound graph "A" "B" ["A"; "B"] Hrun).
Defined.

(** X9. A start that is not a key of the dictionary makes the search raise
    [KeyError], at its first lookup, whatever the goal. *)
Theorem breadth_first_pathfind_unknown_start graph start goal :
  graph !! start = None →
  Station.breadth_first_pathfind graph start goal = Some (Raise KeyError).
Proof. apply bfs_unknown_start. Qed.

Lemma breadth_first_pathfind_unknown_start_witness :
  Station.build_graph line_catalog !! "Z" = None ∧
  Station.breadth_first_pathfind (Station.build_graph line_catalog) "Z" "A"
  = Some (Raise KeyError).
Proof.
  assert (Station.build_graph line_catalog !! "Z" = None) as Hnone
    by (vm_compute; reflexivity).
  split; [exact Hnone|].
  exact (breadth_first_pathfind_unknown_start _ "Z" "A" Hnone).
Defined.

(** X10. A goal that is a neighbour of the start is answered by the two
    stations alone, also when start and goal are the same station joined
    to itself. *)
Theorem breadth_first_pathfind_neighbour graph start goal neighbours :
  graph !! start = Some neighbours → goal ∈ neighbours →
  Station.breadth_first_pathfind graph start goal = Some (Ok [start; goal]).
Proof.
  intros Hstart Hgoal.
  unfold Station.breadth_first_pathfind, Station.bfs_fuel.
  cbn [Station.bfs_loop last]. rewrite bool_decide_eq_false_2
    by apply not_elem_of_nil.
  rewrite Hstart, extend_spec. by rewrite bool_decide_eq_true_2.
Qed.

Lemma breadth_first_pathfind_neighbour_witness :
  Station.build_graph line_catalog !! "B" = Some ["C"; "A"] ∧
  "A" ∈ ["C"; "A"] ∧
  Station.breadth_first_pathfind (Station.build_graph line_catalog) "B" "A"
  = Some (Ok ["B"; "A"]).
Proof.
  assert (Station.build_graph line_catalog !! "B" = Some ["C"; "A"]) as Hns
    by (vm_compute; reflexivity).
  assert ("A" ∈ ["C"; "A"]) as Hin by (right; left).
  split_and!; [exact Hns | exact Hin |].
  exact (breadth_first_pathfind_neighbour _ "B" "A" _ Hns Hin).
Defined.

(** ** The route menu *)

Lemma submenu_3_search station_catalog root goal steps :
  root ≠ goal → (0 ≤ steps)%Z →
  submenu_3 station_catalog root goal (Some steps)
  = match Station.breadth_first_pathfind
            (Station.build_graph station_catalog) root goal with
    | None => None
    | Some (Raise KeyError) => Some (Ok InvalidStation)
    | Some (Raise e) => Some (Raise e)
    | Some (Ok path) =>
        if bool_decide (length path = 0) then Some (Ok NoRouteFound)
        else if bool_decide (Z.of_nat (length (tail path)) > steps)%Z
             then Some (Ok CannotBeReached)
             else Some (Ok CanBeReached)
    end.
Proof.
  intros Hne Hsteps. unfold submenu_3.
  rewrite bool_decide_eq_false_2 by done.
  by rewrite bool_decide_eq_false_2 by lia.
Qed.

(** X11. The answer of the route menu on a loaded network, for a start
    station of the network, a different goal and a number of time units
    that is not negative: it is one of the three answers; it is "no route
    found" exactly when the goal is unreachable, and "can be reached"
    exactly when some path from start to goal has no more hops than the
    number of time units. *)
Theorem submenu_3_answer stations_list connections_list catalog
    root goal steps :
  Station.map_connections stations_list connections_list = Ok catalog →
  root ∈ stations_list.*1 → root ≠ goal → (0 ≤ steps)%Z →
  ∃ report,
    submenu_3 catalog root goal (Some steps) = Some (Ok report) ∧
    (report = NoRouteFound ∨ report = CannotBeReached
     ∨ report = CanBeReached) ∧
    (report = NoRouteFound
     ↔ ¬ reachable (Station.build_graph catalog) root goal) ∧
    (report = CanBeReached
     ↔ ∃ p, path_between (Station.build_graph catalog) root goal p
            ∧ (Z.of_nat (hops p) ≤ steps)%Z).
Proof.
  intros Hload Hroot Hne Hsteps.
  pose proof (build_graph_closed _ _ _ Hload) as Hclosed.
  set (graph := Station.build_graph catalog) in *.
  assert (is_Some (graph !! root)) as Hkey.
  { apply build_graph_key. by rewrite (map_connections_dom _ _ _ _ Hload). }
  destruct (breadth_first_pathfind_answer graph root goal Hclosed Hkey)
    as (r & Hrun & Hans).
  rewrite submenu_3_search by done. fold graph. rewrite Hrun.
  destruct (decide (r = [])) as [->|Hr].
  - exists NoRouteFound. split; [done|]. split; [by left|].
    assert (¬ reachable graph root goal) as Hnone.
    { intros [p Hp]. pose proof (search_answer_empty _ _ _ Hans p Hp).
      pose proof (path_between_distinct _ _ _ _ Hp Hne). lia. }
    split; [done|]. split; [done|]. intros (p & Hp & _).
    destruct Hnone. by exists p.
  - destruct (search_answer_path _ _ _ _ Hans Hr) as (Hpath & Hlen & Hmin).
    rewrite bool_decide_eq_false_2 by (destruct r; simpl in *; [done|lia]).
    assert (length (tail r) = hops r) as Htail
      by (destruct r; unfold hops; simpl; lia).
    rewrite Htail.
    assert (reachable graph root goal) as Hreach by by exists r.
    case_bool_decide as Hfar.
    + exists CannotBeReached. split; [done|]. split; [auto|].
      split; [split; [done|tauto]|]. split; [done|].
      intros (p & Hp & Hhops).
      pose proof (path_between_distinct _ _ _ _ Hp Hne) as Hplen.
      specialize (Hmin p Hp Hplen). unfold hops in *. lia.
    + exists CanBeReached. split; [done|]. split; [auto|].
      split; [split; [done|tauto]|]. split; [|done].
      intros _. exists r. split; [done|lia].
Qed.

Lemma submenu_3_answer_witness :
  Station.map_connections line_stations line_connections = Ok line_catalog ∧
  "A" ∈ line_stations.*1 ∧ "A" ≠ "C" ∧ (0 ≤ 1)%Z ∧
  submenu_3 line_catalog "A" "C" (Some 1%Z) = Some (Ok CannotBeReached) ∧
  ∃ report,
    submenu_3 line_catalog "A" "C" (Some 1%Z) = Some (Ok report) ∧
    (report = NoRouteFound ∨ report = CannotBeReached
     ∨ report = CanBeReached) ∧
    (report = NoRouteFound
     ↔ ¬ reachable (Station.build_graph line_catalog) "A" "C") ∧
    (report = CanBeReached
     ↔ ∃ p, path_between (Station.build_graph line_catalog) "A" "C" p
            ∧ (Z.of_nat (hops p) ≤ 1)%Z).
Proof.
  assert ("A" ∈ line_stations.*1) as Hroot by left.
  assert ("A" ≠ "C") as Hne by discriminate.
  assert (0 ≤ 1)%Z as Hsteps by lia.
  split_and!; [exact line_loaded | exact Hroot | exact Hne | exact Hsteps
               | vm_compute; reflexivity |].
  exact (submenu_3_answer line_stations line_connections line_catalog
           "A" "C" 1%Z line_loaded Hroot Hne Hsteps).
Defined.

(** X12. A goal that is no station of the loaded network, asked for from a
    station of it, is not complained about as invalid input: the menu
    answers "no route found". *)
Theorem submenu_3_unknown_goal stations_list connections_list catalog
    root goal steps :
  Station.map_connections stations_list connections_list = Ok catalog →
  root ∈ stations_list.*1 → goal ∉ stations_list.*1 → (0 ≤ steps)%Z →
  submenu_3 catalog root goal (Some steps) = Some (Ok NoRouteFound).
Proof.
  intros Hload Hroot Hgoal Hsteps.
  assert (root ≠ goal) as Hne by (intros ->; done).
  rewrite submenu_3_search by done.
  destruct (loaded_search_list _ _ _ root goal Hload Hroot)
    as (r & -> & Hr).
  by rewrite (Hr Hgoal).
Qed.

Lemma submenu_3_unknown_goal_witness :
  Station.map_connections line_stations line_connections = Ok line_catalog ∧
  "A" ∈ line_stations.*1 ∧ ("Z" ∉ line_stations.*1) ∧ (0 ≤ 5)%Z ∧
  submenu_3 line_catalog "A" "Z" (Some 5%Z) = Some (Ok NoRouteFound).
Proof.
  assert ("A" ∈ line_stations.*1) as Hroot by left.
  assert ("Z" ∉ line_stations.*1) as Hgoal.
  { intros Hin. simpl in Hin.
    repeat (apply elem_of_cons in Hin as [Hin|Hin]; [discriminate|]).
    by apply elem_of_nil in Hin. }
  assert (0 ≤ 5)%Z as Hsteps by lia.
  split_and!; [exact line_loaded | exact Hroot | exact Hgoal | exact Hsteps |].
  exact (submenu_3_unknown_goal line_stations line_connections line_catalog
           "A" "Z" 5%Z line_loaded Hroot Hgoal Hsteps).
Defined.

(** X13. A start that is no station of the catalog gets the complaint
    about invalid stations, when it differs from the goal and the number of
    time units is not negative; the same start as goal, or a negative
    number, is complained about first. *)
Theorem submenu_3_unknown_root station_catalog root goal steps :
  station_catalog !! root = None →
  submenu_3 station_catalog root goal (Some steps)
  = Some (Ok (if bool_decide (root = goal) then SameStation
              else if bool_decide (steps < 0)%Z then InvalidNumber
              else InvalidStation)).
Proof.
  intros Hroot. unfold submenu_3.
  case_bool_decide; [done|]. case_bool_decide; [done|].
  rewrite bfs_unknown_start; [done|].
  unfold Station.build_graph. by rewrite lookup_fmap, Hroot.
Qed.

Lemma submenu_3_unknown_root_witness :
  line_catalog !! "Z" = None ∧
  submenu_3 line_catalog "Z" "A" (Some 3%Z) = Some (Ok InvalidStation).
Proof.
  assert (line_catalog !! "Z" = None) as Hroot by (vm_compute; reflexivity).
  split; [exact Hroot|].
  exact (submenu_3_unknown_root line_catalog "Z" "A" 3%Z Hroot).
Defined.

(** ** More on moving a train *)

Lemma scan_inv self conns flag self' :
  Train.scan self conns = (flag, self') →
  train_name self' = train_name self ∧ line self' = line self ∧
  course self' = course self ∧
  (flag = false → self' = self) ∧
  (flag = true → ∃ connection, connection ∈ conns
                               ∧ station self' = connection.1.1).
Proof.
  induction conns as [|c conns IH]; simpl.
  - intros [= <- <-]. split_and!; done.
  - destruct (_ && _).
    + intros [= <- <-]. split_and!; [done..|]. intros _. exists c.
      split; [left|done].
    + intros Hscan. destruct (IH Hscan) as (? & ? & ? & ? & Hc).
      split_and!; [done..|]. intros Hflag.
      destruct (Hc Hflag) as (c' & Hc' & Hst). exists c'.
      split; [by right|done].
Qed.

Lemma scan_exact self conns :
  (line self, course self) ∈ Train.connections_data conns →
  (Train.scan self conns).1 = true.
Proof.
  induction conns as [|c conns IH]; simpl.
  - intros Hin. by apply elem_of_nil in Hin.
  - intros Hin. destruct (_ && _) eqn:Hc; [done|]. apply IH.
    apply elem_of_cons in Hin as [Heq|Hin]; [|done].
    injection Heq as Hln Hco. unfold Train.tuple_mem in Hc.
    rewrite (bool_decide_eq_true_2 (line self = c.1.2)) in Hc by done.
    rewrite (bool_decide_eq_true_2 (course self = c.2)) in Hc by done.
    by rewrite !orb_true_r in Hc.
Qed.

Lemma reverse_name self :
  train_name (Train.reverse self) = train_name self.
Proof. unfold Train.reverse. by case_bool_decide. Qed.

Lemma reverse_course self : course (Train.reverse self) ≠ course self.
Proof. unfold Train.reverse. case_bool_decide; simpl; congruence. Qed.

(** X14. The outcome of [Train.move] for a train that stands at a station
    of the catalog: name and line are never changed; when a connection of
    the station matches line and course exactly, the move succeeds and the
    course is kept; and when the move fails, what is left is the train
    reversed, at the same station with the other course, so that a failed
    move is not without effect. *)
Theorem move_outcome self station_catalog st :
  station_catalog !! station self = Some st →
  ∃ flag self',
    Train.move self station_catalog = Ok (flag, self') ∧
    train_name self' = train_name self ∧ line self' = line self ∧
    ((line self, course self) ∈ Train.connections_data (connections st) →
     flag = true ∧ course self' = course self) ∧
    (flag = false →
     self' = Train.reverse self ∧ station self' = station self ∧
     course self' ≠ course self ∧
     (line self, course self) ∉ Train.connections_data (connections st)).
Proof.
  intros Hst. unfold Train.move. rewrite Hst. cbv zeta.
  case_bool_decide as Hexact.
  - destruct (Train.scan self (connections st)) as [flag self'] eqn:Hscan.
    exists flag, self'. split; [done|].
    destruct (scan_inv _ _ _ _ Hscan) as (Hn & Hl & Hc & _).
    pose proof (scan_exact self _ Hexact) as Hflag. rewrite Hscan in Hflag.
    simpl in Hflag. subst flag. split_and!; [done..|]. done.
  - destruct (Train.scan (Train.reverse self) (connections st))
      as [flag self'] eqn:Hscan.
    exists flag, self'. split; [done|].
    destruct (scan_inv _ _ _ _ Hscan) as (Hn & Hl & Hc & Hfail & _).
    split_and!.
    + by rewrite Hn, reverse_name.
    + by rewrite Hl, reverse_line.
    + done.
    + intros Hflag. rewrite (Hfail Hflag). split_and!;
        [done | apply reverse_station | apply reverse_course | done].
Qed.

Lemma move_outcome_witness :
  let self := mkTrain 1 "C" "L1" "N" in
  line_catalog !! station self = Some (mkStation "C" 0%Q [("B", "L1", "S")]) ∧
  Train.move self line_catalog = Ok (true, mkTrain 1 "B" "L1" "S") ∧
  ∃ flag self',
    Train.move self line_catalog = Ok (flag, self') ∧
    train_name self' = train_name self ∧ line self' = line self ∧
    ((line self, course self)
       ∈ Train.connections_data [("B", "L1", "S")] →
     flag = true ∧ course self' = course self) ∧
    (flag = false →
     self' = Train.reverse self ∧ station self' = station self ∧
     course self' ≠ course self ∧
     (line self, course self) ∉ Train.connections_data [("B", "L1", "S")]).
Proof.
  intros self.
  assert (line_catalog !! station self
          = Some (mkStation "C" 0%Q [("B", "L1", "S")])) as Hst
    by (vm_compute; reflexivity).
  split_and!; [exact Hst | vm_compute; reflexivity |].
  exact (move_outcome self line_catalog _ Hst).
Defined.

Lemma move_raise self station_catalog e :
  Train.move self station_catalog = Raise e → e = KeyError.
Proof.
  unfold Train.move. destruct (station_catalog !! station self); [done|].
  by intros [= <-].
Qed.

Lemma turn_raise station_catalog train rnd e :
  Train.turn station_catalog train rnd = Raise e → e = KeyError.
Proof.
  unfold Train.turn.
  destruct (station_catalog !! station train) as [st|] eqn:Hst.
  - destruct (turn_spec station_catalog train rnd st Hst) as (t & Ht & _).
    unfold Train.turn in Ht. rewrite Hst in Ht. by rewrite Ht.
  - by intros [= <-].
Qed.

Lemma simulate_turn_raise station_catalog train_catalog rnd e :
  Train.simulate_turn station_catalog train_catalog rnd = Raise e →
  e = KeyError.
Proof.
  unfold Train.simulate_turn. revert rnd.
  induction train_catalog as [|entry rest IH]; intros rnd; [done|].
  rewrite rand_map_cons. unfold rand_bind at 1.
  destruct (Train.turn station_catalog entry.2 rnd) as [[t rnd1]|e1] eqn:Ht.
  - unfold rand_ret at 1.
    destruct (rand_map _ rest rnd1) as [[ys rnd2]|e2] eqn:Hrest; [done|].
    intros [= <-]. by eapply IH.
  - intros [= <-]. by eapply turn_raise.
Qed.

(** X15. A turn cannot be simulated with a train that stands at a station
    the catalog does not hold: [simulate_turn] raises [KeyError], whatever
    the other trains and the random draws are. *)
Theorem simulate_turn_unknown_station station_catalog train_catalog rnd
    entry :
  entry ∈ train_catalog → station_catalog !! station entry.2 = None →
  Train.simulate_turn station_catalog train_catalog rnd = Raise KeyError.
Proof.
  intros Hentry Hunknown.
  destruct (Train.simulate_turn station_catalog train_catalog rnd)
    as [[trains' rnd']|e] eqn:Hrun.
  - apply rand_map_inv in Hrun.
    apply list_elem_of_lookup in Hentry as [i Hi].
    destruct (Forall2_lookup_l _ _ _ _ _ Hrun Hi)
      as (entry' & _ & r & r' & Hbody).
    unfold rand_bind, Train.turn in Hbody. rewrite Hunknown in Hbody. done.
  - f_equal. by eapply simulate_turn_raise.
Qed.

Lemma simulate_turn_unknown_station_witness :
  let lost := ("2", mkTrain 2 "Z" "L1" "N") in
  let train_catalog := [("1", mkTrain 1 "A" "L1" "N"); lost] in
  lost ∈ train_catalog ∧ line_catalog !! station lost.2 = None ∧
  Train.simulate_turn line_catalog train_catalog second_choice
  = Raise KeyError.
Proof.
  intros lost train_catalog.
  assert (lost ∈ train_catalog) as Hin by (right; left).
  assert (line_catalog !! station lost.2 = None) as Hnone
    by (vm_compute; reflexivity).
  split_and!; [exact Hin | exact Hnone |].
  exact (simulate_turn_unknown_station line_catalog train_catalog
           second_choice lost Hin Hnone).
Defined.

(** ** Turn after turn on a loaded network *)

Lemma move_stands stations_list connections_list station_catalog
    self flag self' :
  Station.map_connections stations_list connections_list
    = Ok station_catalog →
  Train.move self station_catalog = Ok (flag, self') →
  is_Some (station_catalog !! station self').
Proof.
  intros Hload. unfold Train.move.
  destruct (station_catalog !! station self) as [st|] eqn:Hst; [|done].
  cbv zeta. intros [= Hscan].
  assert (∀ t, station t = station self →
            Train.scan t (connections st) = (flag, self') →
            is_Some (station_catalog !! station self')) as Hgen.
  { intros t Ht Hscan'. destruct (scan_inv _ _ _ _ Hscan')
      as (_ & _ & _ & Hfail & Hdone). destruct flag.
    - destruct Hdone as (c & Hc & ->); [done|].
      destruct (map_connections_entries _ _ _ _ _ _ Hload Hst Hc)
        as (el & Hel & Hcase).
      destruct (map_connections_rows_known _ _ _ _ Hload Hel)
        as [Hfrom Hto].
      apply elem_of_dom in Hfrom, Hto. destruct el as [[[a b] ln] dir].
      unfold Station.row_from, Station.row_to in *. cbn [fst snd] in *.
      destruct Hcase as [[_ ->]|[_ ->]]; simpl; [done|].
      destruct (bool_decide (dir = "S")); exact Hfrom.
    - rewrite Hfail, Ht, Hst by done. by eexists. }
  case_bool_decide.
  - by apply (Hgen self).
  - apply (Hgen (Train.reverse self)); [apply reverse_station | done].
Qed.

Lemma move_same_train self station_catalog flag self' :
  Train.move self station_catalog = Ok (flag, self') →
  train_name self' = train_name self ∧ line self' = line self.
Proof.
  unfold Train.move.
  destruct (station_catalog !! station self) as [st|]; [|done].
  cbv zeta. intros [= Hscan]. case_bool_decide.
  - destruct (scan_inv _ _ _ _ Hscan) as (? & ? & _). done.
  - destruct (scan_inv _ _ _ _ Hscan) as (Hn & Hl & _).
    by rewrite Hn, Hl, reverse_name, reverse_line.
Qed.

(** One turn on a loaded network, for trains that stand in it. *)
Lemma simulate_turn_closed stations_list connections_list station_catalog
    train_catalog rnd :
  Station.map_connections stations_list connections_list
    = Ok station_catalog →
  Forall (stands station_catalog) train_catalog →
  ∃ train_catalog',
    Train.simulate_turn station_catalog train_catalog rnd
      = Ok (train_catalog',
            mkRandom (position rnd + length train_catalog)
                     (uniform rnd) (integer rnd)) ∧
    Forall2 same_train train_catalog train_catalog' ∧
    Forall (stands station_catalog) train_catalog'.
Proof.
  intros Hload Hstand. rewrite Forall_forall in Hstand.
  destruct (simulate_turn_entries station_catalog train_catalog rnd Hstand)
    as (trains' & Hrun & Hlen & Hentries).
  exists trains'. split; [done|].
  assert (∀ i entry entry', train_catalog !! i = Some entry →
            trains' !! i = Some entry' →
            same_train entry entry' ∧ stands station_catalog entry')
    as Hboth.
  { intros i [key train] entry' Hi Hi'.
    destruct (Hentries i key train Hi)
      as (st & train' & Hst & Hi'' & Hdelayed & Hmoved).
    rewrite Hi' in Hi''. injection Hi'' as ->.
    destruct (Qlt_le_dec (uniform rnd (position rnd + i)) (delay_constant st))
      as [Hlt|Hge].
    - rewrite (Hdelayed Hlt). split; [done|]. by exists st.
    - destruct (Hmoved (Qle_not_lt _ _ Hge)) as [flag Hmove]. split.
      + destruct (move_same_train _ _ _ _ Hmove). done.
      + by eapply move_stands. }
  split.
  - apply Forall2_same_length_lookup_2; [done|].
    intros i entry entry' Hi Hi'. by apply (Hboth i).
  - apply Forall_lookup. intros i entry' Hi'.
    destruct (lookup_lt_is_Some_2 train_catalog i) as [entry Hi].
    { rewrite <- Hlen. by eapply lookup_lt_Some. }
    by apply (Hboth i entry).
Qed.

Lemma same_train_trans entry1 entry2 entry3 :
  same_train entry1 entry2 → same_train entry2 entry3 →
  same_train entry1 entry3.
Proof. intros (? & ? & ?) (? & ? & ?). split_and!; congruence. Qed.

Lemma simulate_turns_closed stations_list connections_list
    station_catalog train_catalog n rnd :
  Station.map_connections stations_list connections_list
    = Ok station_catalog →
  Forall (stands station_catalog) train_catalog →
  ∃ train_catalog',
    simulate_turns n station_catalog train_catalog rnd
      = Ok (train_catalog',
            mkRandom (position rnd + n * length train_catalog)
                     (uniform rnd) (integer rnd)) ∧
    Forall2 same_train train_catalog train_catalog' ∧
    Forall (stands station_catalog) train_catalog'.
Proof.
  intros Hload. revert train_catalog rnd.
  induction n as [|n IH]; intros train_catalog rnd Hstand.
  - exists train_catalog. split_and!; [| |done].
    + destruct rnd as [pos u g]. simpl. unfold rand_ret. simpl.
      by rewrite Nat.add_0_r.
    + apply Forall2_same_length_lookup_2; [done|].
      intros i entry entry' Hi Hi'. rewrite Hi in Hi'. injection Hi' as <-.
      by split_and!.
  - destruct (simulate_turn_closed _ _ _ train_catalog rnd Hload Hstand)
      as (trains1 & Hrun1 & Hsame1 & Hstand1).
    destruct (IH trains1 (mkRandom (position rnd + length train_catalog)
                                   (uniform rnd) (integer rnd)) Hstand1)
      as (trains2 & Hrun2 & Hsame2 & Hstand2).
    exists trains2. split_and!; [|clear Hrun1 Hrun2|done].
    + cbn [simulate_turns]. unfold rand_bind. rewrite Hrun1, Hrun2. simpl.
      apply Forall2_length in Hsame1. do 3 f_equal. lia.
    + apply Forall2_same_length_lookup_2.
      { apply Forall2_length in Hsame1, Hsame2. congruence. }
      intros i entry entry2 Hi Hi2.
      destruct (Forall2_lookup_l _ _ _ _ _ Hsame1 Hi)
        as (entry1 & Hi1 & H1).
      pose proof (Forall2_lookup_lr _ _ _ _ _ _ Hsame2 Hi1 Hi2) as H2.
      by eapply same_train_trans.
Qed.

(** X16. On a loaded network, trains that stand at stations of it can be
    simulated for any number of turns: no turn raises, every turn draws
    one sample per train, and the trains keep their number, keys, names and
    lines and still stand at stations of the network. *)
Theorem simulate_turns_never_raise stations_list connections_list
    station_catalog train_catalog n rnd :
  Station.map_connections stations_list connections_list
    = Ok station_catalog →
  Forall (stands station_catalog) train_catalog →
  ∃ train_catalog',
    simulate_turns n station_catalog train_catalog rnd
      = Ok (train_catalog',
            mkRandom (position rnd + n * length train_catalog)
                     (uniform rnd) (integer rnd)) ∧
    Forall2 same_train train_catalog train_catalog' ∧
    Forall (stands station_catalog) train_catalog'.
Proof. apply simulate_turns_closed. Qed.

Lemma simulate_turns_never_raise_witness :
  let train_catalog := [("1", mkTrain 1 "A" "L1" "N")] in
  Station.map_connections line_stations line_connections = Ok line_catalog ∧
  Forall (stands line_catalog) train_catalog ∧
  ∃ train_catalog',
    simulate_turns 3 line_catalog train_catalog second_choice
      = Ok (train_catalog', mkRandom 3 (uniform second_choice)
                                     (integer second_choice)) ∧
    Forall2 same_train train_catalog train_catalog' ∧
    Forall (stands line_catalog) train_catalog'.
Proof.
  intros train_catalog.
  assert (Forall (stands line_catalog) train_catalog) as Hstand.
  { apply Forall_singleton. vm_compute. eauto. }
  split_and!; [exact line_loaded | exact Hstand |].
  exact (simulate_turns_never_raise line_stations line_connections
           line_catalog train_catalog 3 second_choice line_loaded Hstand).
Defined.

(** ** More on seeding *)

Lemma place_inv station_catalog n rnd entry rnd' :
  Train.place station_catalog n rnd = Ok (entry, rnd') →
  entry.1 = pretty (n + 1) ∧ train_name entry.2 = n + 1 ∧
  (course entry.2 = "N" ∨ course entry.2 = "S") ∧
  stands station_catalog entry ∧
  position rnd' = position rnd + 2.
Proof.
  unfold Train.place, rand_bind.
  destruct (choice _ rnd) as [[st rnd1]|e] eqn:Hst; [|done].
  destruct (choice ["N"; "S"] rnd1) as [[co rnd2]|e] eqn:Hco; [|done].
  intros [= <- <-]. apply choice_inv in Hst as [Hst ->].
  apply choice_inv in Hco as [Hco ->]. simpl.
  split_and!; [done..| | |unfold advance; simpl; lia].
  - rewrite !elem_of_cons in Hco. destruct Hco as [->|[->|Hco]]; auto.
    by apply elem_of_nil in Hco.
  - apply list_elem_of_fmap in Hst as ([key st'] & -> & Hin).
    apply elem_of_map_to_list in Hin. by exists st'.
Qed.

Lemma assign_line_inv station_catalog entry rnd entry' rnd' :
  Train.assign_line station_catalog entry rnd = Ok (entry', rnd') →
  entry'.1 = entry.1 ∧ train_name entry'.2 = train_name entry.2 ∧
  station entry'.2 = station entry.2 ∧ course entry'.2 = course entry.2 ∧
  position rnd' = position rnd + 1.
Proof.
  unfold Train.assign_line.
  destruct (station_catalog !! station entry.2) as [st|]; [|done].
  unfold rand_bind.
  destruct (choice _ rnd) as [[ln rnd1]|e] eqn:Hln; [|done].
  intros [= <- <-]. apply choice_inv in Hln as [_ ->]. simpl.
  split_and!; [done..|unfold advance; simpl; lia].
Qed.

Lemma rand_map_position {A B} (body : A → Rand B) k xs rnd ys rnd' :
  (∀ x r y r', body x r = Ok (y, r') → position r' = position r + k) →
  rand_map body xs rnd = Ok (ys, rnd') →
  position rnd' = position rnd + k * length xs.
Proof.
  intros Hbody. revert rnd ys. induction xs as [|x xs IH]; intros rnd ys.
  - intros [= <- <-]. simpl. lia.
  - rewrite rand_map_cons.
    destruct (body x rnd) as [[y rnd1]|e] eqn:Hy; [|done].
    destruct (rand_map body xs rnd1) as [[ys' rnd2]|e] eqn:Hys; [|done].
    intros [= <- <-]. rewrite (IH _ _ Hys), (Hbody _ _ _ _ Hy). simpl. lia.
Qed.

Lemma build_catalog_entries station_catalog train_count rnd trains rnd' :
  Train.build_catalog station_catalog train_count rnd = Ok (trains, rnd') →
  length trains = train_count ∧
  position rnd' = position rnd + 3 * train_count ∧
  ∀ i entry, trains !! i = Some entry →
    entry.1 = pretty (i + 1) ∧ train_name entry.2 = i + 1 ∧
    (course entry.2 = "N" ∨ course entry.2 = "S") ∧
    stands station_catalog entry ∧ on_line station_catalog entry.2.
Proof.
  unfold Train.build_catalog, rand_bind.
  destruct (rand_map (Train.place station_catalog) _ rnd)
    as [[placed rnd1]|e] eqn:Hplaced; [|done].
  intros Hassigned.
  pose proof (rand_map_position _ 2 _ _ _ _
                (λ x r y r' H, proj2 (proj2 (proj2 (proj2
                   (place_inv station_catalog x r y r' H))))) Hplaced)
    as Hpos1.
  pose proof (rand_map_position _ 1 _ _ _ _
                (λ x r y r' H, proj2 (proj2 (proj2 (proj2
                   (assign_line_inv station_catalog x r y r' H)))))
                Hassigned) as Hpos2.
  apply rand_map_inv in Hplaced, Hassigned.
  pose proof (Forall2_length _ _ _ Hplaced) as Hlen1.
  pose proof (Forall2_length _ _ _ Hassigned) as Hlen2.
  rewrite length_seq in Hlen1, Hpos1. split_and!; [lia|lia|].
  intros i entry Hi.
  destruct (Forall2_lookup_r _ _ _ _ _ Hassigned Hi)
    as (pe & Hpe & r & r' & Hbody).
  destruct (Forall2_lookup_r _ _ _ _ _ Hplaced Hpe)
    as (n & Hn & r0 & r0' & Hplace).
  apply lookup_seq in Hn as [-> _]. simpl in Hplace.
  destruct (place_inv _ _ _ _ _ Hplace) as (Hkey & Hname & Hco & Hstand & _).
  destruct (assign_line_inv _ _ _ _ _ Hbody) as (Hk & Hnm & Hst & Hc & _).
  pose proof (assign_line_on_line _ _ _ _ _ Hbody) as Hon.
  split_and!; [congruence|congruence|by rewrite Hc| |done].
  unfold stands. by rewrite Hst.
Qed.

(** X17. What [Train.build_catalog] returns when it returns: as many trains
    as asked for, after three draws per train; the train at place [i] has
    the key [str(i + 1)] and the name [i + 1], heads north or south, and
    stands at a station of the catalog that has a connection of the line
    of the train. *)
Theorem build_catalog_shape station_catalog train_count rnd trains rnd' :
  Train.build_catalog station_catalog train_count rnd = Ok (trains, rnd') →
  length trains = train_count ∧
  position rnd' = position rnd + 3 * train_count ∧
  ∀ i entry, trains !! i = Some entry →
    entry.1 = pretty (i + 1) ∧ train_name entry.2 = i + 1 ∧
    (course entry.2 = "N" ∨ course entry.2 = "S") ∧
    stands station_catalog entry ∧ on_line station_catalog entry.2.
Proof. apply build_catalog_entries. Qed.

Lemma line_seeded :
  Train.build_catalog line_catalog 2 second_choice
  = Ok ([("1", mkTrain 1 "A" "L1" "N"); ("2", mkTrain 2 "A" "L1" "S")],
        mkRandom 6 (uniform second_choice) (integer second_choice)).
Proof. vm_compute. reflexivity. Qed.

Lemma build_catalog_shape_witness :
  let trains := [("1", mkTrain 1 "A" "L1" "N"); ("2", mkTrain 2 "A" "L1" "S")] in
  Train.build_catalog line_catalog 2 second_choice
  = Ok (trains, mkRandom 6 (uniform second_choice) (integer second_choice)) ∧
  length trains = 2 ∧
  ∀ i entry, trains !! i = Some entry →
    entry.1 = pretty (i + 1) ∧ train_name entry.2 = i + 1 ∧
    (course entry.2 = "N" ∨ course entry.2 = "S") ∧
    stands line_catalog entry ∧ on_line line_catalog entry.2.
Proof.
  intros trains. split; [exact line_seeded|].
  destruct (build_catalog_shape line_catalog 2 second_choice trains _
              line_seeded) as (Hlen & _ & Hentries).
  split; [exact Hlen | exact Hentries].
Defined.

Lemma train_lookup_found train_catalog i entry :
  train_catalog !! i = Some entry →
  (∀ j other, j < i → train_catalog !! j = Some other → other.1 ≠ entry.1) →
  train_lookup train_catalog entry.1 = Ok entry.2.
Proof.
  revert i. induction train_catalog as [|first rest IH]; intros i Hi Hfresh;
    [done|].
  destruct i as [|i]; simpl.
  - injection Hi as ->. by rewrite bool_decide_eq_true_2.
  - rewrite bool_decide_eq_false_2 by (apply (Hfresh 0); [lia|done]).
    apply (IH i); [done|]. intros j other Hj Hother.
    apply (Hfresh (S j)); [lia|done].
Qed.

Lemma train_lookup_missing train_catalog key :
  (∀ entry, entry ∈ train_catalog → entry.1 ≠ key) →
  train_lookup train_catalog key = Raise KeyError.
Proof.
  induction train_catalog as [|first rest IH]; intros Hfresh; [done|].
  simpl. rewrite bool_decide_eq_false_2 by (apply Hfresh; left).
  apply IH. intros entry Hentry. apply Hfresh. by right.
Qed.

(** X18. The train menu after seeding: the keys of the seeded catalog are
    the decimal numerals of [1] to the train count, so the input [str(k)]
    with [k] in that range is answered by the description of train number
    [k], and every other input by the complaint about invalid input. *)
Theorem submenu_2_seeded station_catalog train_count rnd trains rnd' :
  Train.build_catalog station_catalog train_count rnd = Ok (trains, rnd') →
  (∀ k, 1 ≤ k ≤ train_count →
     ∃ self, trains !! (k - 1) = Some (pretty k, self) ∧
             train_name self = k ∧
             submenu_2 trains (pretty k) = TrainInfo (lookup_info self)) ∧
  (∀ key, (∀ k, 1 ≤ k ≤ train_count → key ≠ pretty k) →
     submenu_2 trains key = InvalidTrain).
Proof.
  intros Hseed.
  destruct (build_catalog_entries _ _ _ _ _ Hseed) as (Hlen & _ & Hentries).
  split.
  - intros k Hk.
    destruct (lookup_lt_is_Some_2 trains (k - 1)) as [[key self] Hi]; [lia|].
    destruct (Hentries _ _ Hi) as (Hkey & Hname & _). simpl in Hkey, Hname.
    replace (k - 1 + 1) with k in Hkey, Hname by lia. subst key.
    exists self. split_and!; [done..|]. unfold submenu_2.
    pose proof (train_lookup_found trains (k - 1) (pretty k, self) Hi)
      as Hfound.
    simpl in Hfound. rewrite Hfound; [done|].
    intros j other Hj Hother. destruct (Hentries _ _ Hother) as (Hkey & _).
    rewrite Hkey. simpl. intros Heq%(inj pretty). lia.
  - intros key Hkey. unfold submenu_2.
    rewrite train_lookup_missing; [done|]. intros entry Hentry.
    apply list_elem_of_lookup in Hentry as [i Hi].
    destruct (Hentries _ _ Hi) as (-> & _). intros Heq.
    apply (Hkey (i + 1)); [|done]. apply lookup_lt_Some in Hi. lia.
Qed.

Lemma submenu_2_seeded_witness :
  let trains := [("1", mkTrain 1 "A" "L1" "N"); ("2", mkTrain 2 "A" "L1" "S")] in
  Train.build_catalog line_catalog 2 second_choice
  = Ok (trains, mkRandom 6 (uniform second_choice) (integer second_choice)) ∧
  (∀ k, 1 ≤ k ≤ 2 →
     ∃ self, trains !! (k - 1) = Some (pretty k, self) ∧
             train_name self = k ∧
             submenu_2 trains (pretty k) = TrainInfo (lookup_info self)) ∧
  submenu_2 trains "2"
  = TrainInfo ("Train 2 on L1 line Southbound is at station A." +:+ newline) ∧
  submenu_2 trains "02" = InvalidTrain.
Proof.
  intros trains. split; [exact line_seeded|].
  destruct (submenu_2_seeded line_catalog 2 second_choice trains _
              line_seeded) as [Hvalid Hinvalid].
  split_and!; [exact Hvalid | vm_compute; reflexivity |].
  apply Hinvalid. intros k Hk.
  destruct k as [|[|[|k]]]; [lia|discriminate|discriminate|lia].
Defined.

(** X19. The two ends of seeding: no train asked for, no draw and an empty
    catalog, whatever the stations; and a train asked for from a catalog
    without stations raises [IndexError], at the choice of its station. *)
Theorem build_catalog_nothing (station_catalog : gmap string Station)
    train_count rnd :
  Train.build_catalog station_catalog 0 rnd = Ok ([], rnd) ∧
  (0 < train_count →
   Train.build_catalog ∅ train_count rnd = Raise IndexError).
Proof.
  split; [done|]. intros Hcount.
  destruct train_count as [|n]; [lia|].
  unfold Train.build_catalog, rand_bind. cbn [seq]. rewrite rand_map_cons.
  unfold Train.place at 1, rand_bind. by rewrite map_to_list_empty.
Qed.

Lemma build_catalog_nothing_witness :
  0 < 3 ∧
  Train.build_catalog line_catalog 0 second_choice = Ok ([], second_choice) ∧
  Train.build_catalog ∅ 3 second_choice = Raise IndexError.
Proof.
  assert (0 < 3) as Hcount by lia.
  split_and!; [exact Hcount | |].
  - exact (proj1 (build_catalog_nothing line_catalog 3 second_choice)).
  - exact (proj2 (build_catalog_nothing line_catalog 3 second_choice) Hcount).
Defined.

(** X20. The lines offered to a train at a station are the lines of the
    connections of the station, each of them once: a line that several
    connections carry is not more likely to be chosen. *)
Theorem line_options_distinct conns :
  NoDup (Train.line_options conns) ∧
  ∀ ln, ln ∈ Train.line_options conns
        ↔ ∃ connection, connection ∈ conns ∧ connection.1.2 = ln.
Proof.
  split; [|apply line_options_elem]. unfold Train.line_options.
  assert (∀ options : list string, NoDup options →
    NoDup (foldl (λ options connection,
                    if bool_decide (connection.1.2 ∈ options) then options
                    else options ++ [connection.1.2]) options conns))
    as Hgen.
  { induction conns as [|c conns IH]; intros options Hnodup; [done|].
    simpl. apply IH. case_bool_decide as Hc; [done|].
    apply NoDup_app. split_and!; [done| |apply NoDup_singleton].
    intros ln Hln Hc'%list_elem_of_singleton. by subst ln. }
  apply Hgen. constructor.
Qed.

(** X21. Load, seed, simulate: once [map_connections] has returned a
    catalog and [build_catalog] has returned trains for it, any number of
    turns can be simulated and none raises; the trains keep their number,
    keys, names and lines. *)
Theorem seeded_turns_never_raise stations_list connections_list
    station_catalog train_count rnd trains rnd1 n :
  Station.map_connections stations_list connections_list
    = Ok station_catalog →
  Train.build_catalog station_catalog train_count rnd = Ok (trains, rnd1) →
  ∃ trains',
    simulate_turns n station_catalog trains rnd1
      = Ok (trains', mkRandom (position rnd1 + n * train_count)
                              (uniform rnd1) (integer rnd1)) ∧
    Forall2 same_train trains trains'.
Proof.
  intros Hload Hseed.
  destruct (build_catalog_entries _ _ _ _ _ Hseed) as (Hlen & _ & Hentries).
  destruct (simulate_turns_closed stations_list connections_list
              station_catalog trains n rnd1 Hload)
    as (trains' & Hrun & Hsame & _).
  { apply Forall_lookup. intros i entry Hi.
    by destruct (Hentries _ _ Hi) as (_ & _ & _ & Hstand & _). }
  exists trains'. by rewrite <- Hlen.
Qed.

Lemma seeded_turns_never_raise_witness :
  let trains := [("1", mkTrain 1 "A" "L1" "N"); ("2", mkTrain 2 "A" "L1" "S")] in
  let rnd1 := mkRandom 6 (uniform second_choice) (integer second_choice) in
  Station.map_connections line_stations line_connections = Ok line_catalog ∧
  Train.build_catalog line_catalog 2 second_choice = Ok (trains, rnd1) ∧
  ∃ trains',
    simulate_turns 4 line_catalog trains rnd1
      = Ok (trains', mkRandom (position rnd1 + 4 * 2)
                              (uniform rnd1) (integer rnd1)) ∧
    Forall2 same_train trains trains'.
Proof.
  intros trains rnd1. split_and!; [exact line_loaded | exact line_seeded |].
  exact (seeded_turns_never_raise line_stations line_connections line_catalog
           2 second_choice trains rnd1 4 line_loaded line_seeded).
Defined.

(** ** Movement where names are plain *)

Lemma line_A_plain :
  plain_names (mkTrain 1 "A" "L1" "N") [("B", "L1", "N")].
Proof.
  split_and!; [by left|done|done|].
  intros c Hc%list_elem_of_singleton. subst c. simpl.
  split_and!; [done|done|done|by left].
Qed.

(** X22. Where the names met at the station of a train cannot be taken for
    one another (see [plain_names]), [Train.move] does what its
    documentation says: it reverses the course when no connection matches
    line and course, and then takes the first connection of the station,
    in insertion order, whose line is the line of the train and whose
    direction is its course, failing when there is none. *)
Theorem move_plain_by_line self station_catalog st :
  station_catalog !! station self = Some st →
  plain_names self (connections st) →
  Train.move self station_catalog = move_by_line self station_catalog.
Proof. apply move_plain. Qed.

Lemma move_plain_by_line_witness :
  let self := mkTrain 1 "A" "L1" "N" in
  line_catalog !! station self = Some (mkStation "A" 0%Q [("B", "L1", "N")]) ∧
  plain_names self [("B", "L1", "N")] ∧
  Train.move self line_catalog = move_by_line self line_catalog.
Proof.
  intros self.
  assert (line_catalog !! station self
          = Some (mkStation "A" 0%Q [("B", "L1", "N")])) as Hst
    by (vm_compute; reflexivity).
  split_and!; [exact Hst | exact line_A_plain |].
  exact (move_plain_by_line self line_catalog _ Hst line_A_plain).
Defined.

(** X23. Where the names met at the station of a train cannot be taken for
    one another, a move on a loaded network keeps the train on its line:
    if the station of the train had a connection of its line before the
    move, the station it stands at after the move has one too. *)
Theorem move_plain_keeps_line stations_list connections_list station_catalog
    self st flag self' :
  Station.map_connections stations_list connections_list
    = Ok station_catalog →
  station_catalog !! station self = Some st →
  plain_names self (connections st) →
  on_line station_catalog self →
  Train.move self station_catalog = Ok (flag, self') →
  on_line station_catalog self'.
Proof. apply move_plain_on_line. Qed.

Lemma move_plain_keeps_line_witness :
  let self := mkTrain 1 "A" "L1" "N" in
  let self' := mkTrain 1 "B" "L1" "N" in
  Station.map_connections line_stations line_connections = Ok line_catalog ∧
  line_catalog !! station self = Some (mkStation "A" 0%Q [("B", "L1", "N")]) ∧
  plain_names self [("B", "L1", "N")] ∧
  on_line line_catalog self ∧
  Train.move self line_catalog = Ok (true, self') ∧
  on_line line_catalog self'.
Proof.
  intros self self'.
  assert (line_catalog !! station self
          = Some (mkStation "A" 0%Q [("B", "L1", "N")])) as Hst
    by (vm_compute; reflexivity).
  assert (on_line line_catalog self) as Hon.
  { exists (mkStation "A" 0%Q [("B", "L1", "N")]), ("B", "L1", "N").
    split_and!; [exact Hst | left | reflexivity]. }
  assert (Train.move self line_catalog = Ok (true, self')) as Hmove
    by (vm_compute; reflexivity).
  split_and!; [exact line_loaded | exact Hst | exact line_A_plain
               | exact Hon | exact Hmove |].
  exact (move_plain_keeps_line line_stations line_connections line_catalog
           self _ true self' line_loaded Hst line_A_plain Hon Hmove).
Defined.

(** ** The path found visits no station twice *)

Section Shortcut.

Context {A : Type}.
Implicit Types (r : list A).

(** A list with the stretch between two places cut out. *)
Lemma shortcut_lookup r i j k :
  i < j → j < length r →
  (take (S i) r ++ drop (S j) r) !! k
  = if decide (k ≤ i) then r !! k else r !! (k + (j - i)).
Proof.
  intros Hij Hj. case_decide as Hk.
  - rewrite lookup_app_l by (rewrite length_take; lia).
    apply lookup_take_lt. lia.
  - rewrite lookup_app_r by (rewrite length_take; lia).
    rewrite lookup_drop, length_take. f_equal. lia.
Qed.

Lemma shortcut_length r i j :
  i < j → j < length r →
  length (take (S i) r ++ drop (S j) r) = length r - (j - i).
Proof.
  intros Hij Hj. rewrite length_app, length_take, length_drop. lia.
Qed.

End Shortcut.

Lemma path_between_shortcut graph start goal r i j x :
  path_between graph start goal r →
  i < j → r !! i = Some x → r !! j = Some x →
  path_between graph start goal (take (S i) r ++ drop (S j) r).
Proof.
  intros (Hh & Hl & Hjoined) Hij Hi Hj.
  pose proof (lookup_lt_Some _ _ _ Hj) as Hjlen.
  split_and!.
  - rewrite head_lookup in *.
    rewrite shortcut_lookup by done. by rewrite decide_True by lia.
  - rewrite last_lookup in *. rewrite shortcut_length by done.
    rewrite shortcut_lookup by done. case_decide as Hk.
    + assert (j = pred (length r)) as Hjlast by lia.
      assert (pred (length r - (j - i)) = i) as -> by lia.
      rewrite Hi, <- Hj. by rewrite Hjlast.
    + rewrite <- Hl. f_equal. lia.
  - intros k u v Hu Hv. rewrite shortcut_lookup in Hu, Hv by done.
    repeat case_decide; try lia.
    + by apply (Hjoined k).
    + assert (k = i) as -> by lia. rewrite Hi in Hu. injection Hu as <-.
      apply (Hjoined j); [done|]. rewrite <- Hv. f_equal. lia.
    + apply (Hjoined (k + (j - i))); [done|]. exact Hv.
Qed.

Lemma search_path_simple graph start goal r :
  closed graph → is_Some (graph !! start) → start ≠ goal →
  Station.breadth_first_pathfind graph start goal = Some (Ok r) →
  NoDup r.
Proof.
  intros Hclosed Hstart Hne Hrun.
  destruct (breadth_first_pathfind_answer graph start goal Hclosed Hstart)
    as (r' & Hrun' & Hans).
  rewrite Hrun in Hrun'. injection Hrun' as <-.
  destruct (decide (r = [])) as [->|Hr]; [constructor|].
  destruct (search_answer_path _ _ _ _ Hans Hr) as (Hpath & Hlen & Hmin).
  assert (∀ i j x, i < j → r !! i = Some x → r !! j = Some x → False)
    as Hrepeat.
  { intros i j x Hij Hi Hj.
    pose proof (path_between_shortcut _ _ _ _ _ _ _ Hpath Hij Hi Hj) as Hcut.
    pose proof (path_between_distinct _ _ _ _ Hcut Hne) as Hcutlen.
    specialize (Hmin _ Hcut Hcutlen).
    rewrite shortcut_length in Hmin by (by eapply lookup_lt_Some || done).
    apply lookup_lt_Some in Hj. lia. }
  apply NoDup_alt. intros i j x Hi Hj.
  destruct (Nat.lt_trichotomy i j) as [Hlt|[Heq|Hgt]]; [|done|].
  - destruct (Hrepeat i j x Hlt Hi Hj).
  - destruct (Hrepeat j i x Hgt Hj Hi).
Qed.

(** X24. The path that the search returns between two different stations
    of a closed graph visits no station twice. *)
Theorem breadth_first_pathfind_simple graph start goal r :
  closed graph → is_Some (graph !! start) → start ≠ goal →
  Station.breadth_first_pathfind graph start goal = Some (Ok r) →
  NoDup r.
Proof. apply search_path_simple. Qed.

Lemma breadth_first_pathfind_simple_witness :
  let graph := Station.build_graph line_catalog in
  closed graph ∧ is_Some (graph !! "A") ∧ "A" ≠ "C" ∧
  Station.breadth_first_pathfind graph "A" "C" = Some (Ok ["A"; "B"; "C"]) ∧
  NoDup ["A"; "B"; "C"].
Proof.
  intros graph.
  assert (closed graph) as Hclosed
    by exact (build_graph_closed _ _ _ line_loaded).
  assert (is_Some (graph !! "A")) as Hstart by (vm_compute; eauto).
  assert ("A" ≠ "C") as Hne by discriminate.
  assert (Station.breadth_first_pathfind graph "A" "C"
          = Some (Ok ["A"; "B"; "C"])) as Hrun by (vm_compute; reflexivity).
  split_and!; [exact Hclosed | exact Hstart | exact Hne | exact Hrun |].
  exact (breadth_first_pathfind_simple graph "A" "C" _ Hclosed Hstart Hne
           Hrun).
Defined.

Lemma path_between_keys graph start goal p x :
  closed graph → is_Some (graph !! start) →
  path_between graph start goal p → x ∈ p → is_Some (graph !! x).
Proof.
  intros Hclosed Hstart (Hh & _ & Hj) Hx.
  apply list_elem_of_lookup in Hx as [[|k] Hk].
  - rewrite head_lookup in Hh. congruence.
  - destruct (lookup_lt_is_Some_2 p k) as [u Hu].
    { apply lookup_lt_Some in Hk. lia. }
    apply (Hclosed u). by apply (Hj k).
Qed.

(** X25. The path that the search returns between two different stations
    of a closed graph has no more stations than the graph has keys: a
    route never takes as many hops as there are stations. *)
Theorem breadth_first_pathfind_bound graph start goal r :
  closed graph → is_Some (graph !! start) → start ≠ goal →
  Station.breadth_first_pathfind graph start goal = Some (Ok r) →
  length r ≤ size graph.
Proof.
  intros Hclosed Hstart Hne Hrun.
  pose proof (search_path_simple _ _ _ _ Hclosed Hstart Hne Hrun) as Hnodup.
  destruct (breadth_first_pathfind_answer graph start goal Hclosed Hstart)
    as (r' & Hrun' & Hans).
  rewrite Hrun in Hrun'. injection Hrun' as <-.
  destruct (decide (r = [])) as [->|Hr]; [simpl; lia|].
  destruct (search_answer_path _ _ _ _ Hans Hr) as (Hpath & _).
  rewrite <- length_map_to_list, <- (length_fmap fst).
  apply submseteq_length, NoDup_submseteq; [done|].
  intros x Hx.
  destruct (path_between_keys _ _ _ _ _ Hclosed Hstart Hpath Hx) as [ns Hns].
  apply list_elem_of_fmap. exists (x, ns). split; [done|].
  by apply elem_of_map_to_list.
Qed.

Lemma breadth_first_pathfind_bound_witness :
  let graph := Station.build_graph line_catalog in
  closed graph ∧ is_Some (graph !! "A") ∧ "A" ≠ "C" ∧
  Station.breadth_first_pathfind graph "A" "C" = Some (Ok ["A"; "B"; "C"]) ∧
  length ["A"; "B"; "C"] ≤ size graph.
Proof.
  intros graph.
  assert (closed graph) as Hclosed
    by exact (build_graph_closed _ _ _ line_loaded).
  assert (is_Some (graph !! "A")) as Hstart by (vm_compute; eauto).
  assert ("A" ≠ "C") as Hne by discriminate.
  assert (Station.breadth_first_pathfind graph "A" "C"
          = Some (Ok ["A"; "B"; "C"])) as Hrun by (vm_compute; reflexivity).
  split_and!; [exact Hclosed | exact Hstart | exact Hne | exact Hrun |].
  exact (breadth_first_pathfind_bound graph "A" "C" _ Hclosed Hstart Hne
           Hrun).
Defined.
